(** * Axolotl rotation builder (tools/build-axolotl-rotations-json.mjs)

    A shallow embedding of the script that turns an LVLI export (a TSV
    file) into the month-indexed axolotl rotation table, together with the
    properties its specification states about it.

    Text.  The script reads the export with the latin1 decoder, so every
    UTF-16 code unit of every string it handles is a byte: a JavaScript
    string is modelled as a list of [ascii] (one per code unit).

    Regular expressions.  The script recovers its facts with regular
    expression literals.  They are transcribed one by one into a small
    syntax and run by a backtracking matcher that follows the ECMAScript
    matching order (leftmost start, greedy and lazy quantifiers, capture
    groups, [^], [$] and [\b]).

    Numbers.  The only numbers of the script are what [Number] makes of a
    text of decimal digits: a whole number that a double holds, or
    [Infinity].  [Number] rounds to the nearest double, ties to even. *)

From Stdlib Require Import List Ascii Strings.Byte NArith ZArith Lia Bool Arith Permutation.
Import ListNotations.

Set Implicit Arguments.

(** ** Strings as lists of code units *)

Definition str := list ascii.

Inductive lstr := LNil | LCons (a : ascii) (l : lstr).

Fixpoint lstr_of_bytes (l : list byte) : lstr :=
  match l with
  | [] => LNil
  | b :: t => LCons (ascii_of_byte b) (lstr_of_bytes t)
  end.

Fixpoint bytes_of_lstr (l : lstr) : list byte :=
  match l with
  | LNil => []
  | LCons a t => byte_of_ascii a :: bytes_of_lstr t
  end.

Declare Scope str_scope.
Delimit Scope str_scope with str.
#[warnings="-via-type-mismatch,-via-type-remapping"]
String Notation str lstr_of_bytes bytes_of_lstr
  (via lstr mapping [[nil] => LNil, [cons] => LCons]) : str_scope.
Open Scope str_scope.
Open Scope bool_scope.

Definition code (c : ascii) : nat := nat_of_ascii c.

Definition in_range (lo hi c : ascii) : bool :=
  (code lo <=? code c)%nat && (code c <=? code hi)%nat.

Definition is_lower (c : ascii) : bool := in_range "a" "z" c.
Definition is_upper (c : ascii) : bool := in_range "A" "Z" c.
Definition is_digit (c : ascii) : bool := in_range "0" "9" c.

(** [\w]: the characters [A-Za-z0-9_], which [\b] is defined from. *)
Definition is_word (c : ascii) : bool :=
  is_lower c || is_upper c || is_digit c || Ascii.eqb c "_".

(** White space and line terminators of ECMAScript that are code units
    below 256: TAB, LF, VT, FF, CR, SPACE and NBSP.  This is the set both of
    [String.prototype.trim] and of [\s]. *)
Definition is_space (c : ascii) : bool :=
  match code c with
  | 9 | 10 | 11 | 12 | 13 | 32 | 160 => true
  | _ => false
  end.

(** Line terminators below 256 (LF and CR): what [.] does not match. *)
Definition is_line_terminator (c : ascii) : bool :=
  match code c with
  | 10 | 13 => true
  | _ => false
  end.

Definition to_upper (c : ascii) : ascii :=
  if is_lower c then ascii_of_nat (code c - 32) else c.

Definition to_lower (c : ascii) : ascii :=
  if is_upper c then ascii_of_nat (code c + 32) else c.

Fixpoint str_eqb (a b : str) : bool :=
  match a, b with
  | [], [] => true
  | x :: a', y :: b' => Ascii.eqb x y && str_eqb a' b'
  | _, _ => false
  end.

(** [String.prototype.trim]. *)
Fixpoint trimStart (s : str) : str :=
  match s with
  | c :: t => if is_space c then trimStart t else s
  | [] => []
  end.

Definition trimEnd (s : str) : str := rev (trimStart (rev s)).

Definition trim (s : str) : str := trimEnd (trimStart s).

(** [s.split(sep)] for a one-character separator: never the empty list. *)
Fixpoint split (sep : ascii) (s : str) : list str :=
  match s with
  | [] => [[]]
  | c :: t =>
      if Ascii.eqb c sep then [] :: split sep t
      else match split sep t with
           | p :: ps => (c :: p) :: ps
           | [] => [[c]]
           end
  end.

(** The value of a text of decimal digits. *)
Definition digits_value (s : str) : N :=
  fold_left (fun acc c => (10 * acc + N.of_nat (code c - 48))%N) s 0%N.

(** [s.includes(needle)]. *)
Fixpoint starts_with (p s : str) : bool :=
  match p, s with
  | [], _ => true
  | x :: p', y :: s' => Ascii.eqb x y && starts_with p' s'
  | _ :: _, [] => false
  end.

Fixpoint includes (needle s : str) : bool :=
  starts_with needle s ||
  match s with
  | [] => false
  | _ :: t => includes needle t
  end.

(** ** Regular expressions *)

Module RegExp.

(** A character class: a list of inclusive ranges, possibly negated. *)
Record charclass := CharClass { negated : bool; ranges : list (ascii * ascii) }.

Definition one (c : ascii) : ascii * ascii := (c, c).

(** [\d] *)
Definition cc_digit : charclass := CharClass false [("0", "9")]%char.
(** [\s], on code units below 256 *)
Definition cc_space : charclass :=
  CharClass false (map one (map ascii_of_nat [9; 10; 11; 12; 13; 32; 160]%nat)).
(** [.] (no [s] flag): anything but a line terminator *)
Definition cc_dot : charclass :=
  CharClass true (map one (map ascii_of_nat [10; 13]%nat)).

(** The patterns of the script, as far as their syntax goes: literal
    characters, classes, concatenation, a quantifier ([*], [+], [*?], [+?])
    over a class, a capture group, and the assertions [^], [$] and [\b]. *)
Inductive regex :=
| Empty
| Lit (c : ascii)
| Cls (cc : charclass)
| Cat (r1 r2 : regex)
| Star (greedy : bool) (cc : charclass)
| Group (r : regex)
| Bos
| Eos
| WordB.

Definition Plus (greedy : bool) (cc : charclass) : regex :=
  Cat (Cls cc) (Star greedy cc).

Fixpoint lits (s : str) : regex :=
  match s with
  | [] => Empty
  | c :: t => Cat (Lit c) (lits t)
  end.

Fixpoint cats (rs : list regex) : regex :=
  match rs with
  | [] => Empty
  | r :: t => Cat r (cats t)
  end.

(** Canonicalize of the [i] flag (no [u] flag): upper-casing.  A code unit
    of 128 or more never canonicalizes to an ASCII character, and every
    pattern of the script is ASCII, so only ASCII letters are folded. *)
Definition canon (ci : bool) (c : ascii) : ascii :=
  if ci then to_upper c else c.

Definition lit_match (ci : bool) (p c : ascii) : bool :=
  Ascii.eqb (canon ci p) (canon ci c).

Definition in_ranges (rs : list (ascii * ascii)) (c : ascii) : bool :=
  existsb (fun r => in_range (fst r) (snd r) c) rs.

(** A class matches [c] when one of its members canonicalizes like [c];
    with the [i] flag that member is [c] or [c] in the other case. *)
Definition cls_match (ci : bool) (cc : charclass) (c : ascii) : bool :=
  let found :=
    in_ranges (ranges cc) c ||
    (ci && (in_ranges (ranges cc) (to_upper c) || in_ranges (ranges cc) (to_lower c))) in
  if negated cc then negb found else found.

(** A matcher state: the code unit before the current position (none at the
    start of the input), the input from the current position on, and the
    texts captured so far, in the order of their groups. *)
Record mstate := MState { prev : option ascii; rest : str; caps : list str }.

Definition word_at (o : option ascii) : bool :=
  match o with
  | Some c => is_word c
  | None => false
  end.

Section Matcher.
Variable A : Type.
Variable ci : bool.

(** [c*] and [c*?] followed by the continuation [k]. *)
Fixpoint star_greedy (cc : charclass) (cs : list str) (p : option ascii) (l : str)
    (k : mstate -> option A) : option A :=
  match l with
  | c :: t =>
      if cls_match ci cc c then
        match star_greedy cc cs (Some c) t k with
        | Some x => Some x
        | None => k (MState p l cs)
        end
      else k (MState p l cs)
  | [] => k (MState p l cs)
  end.

Fixpoint star_lazy (cc : charclass) (cs : list str) (p : option ascii) (l : str)
    (k : mstate -> option A) : option A :=
  match k (MState p l cs) with
  | Some x => Some x
  | None =>
      match l with
      | c :: t => if cls_match ci cc c then star_lazy cc cs (Some c) t k else None
      | [] => None
      end
  end.

(** The backtracking matcher, in continuation-passing style: [run r st k]
    is the first success, in ECMAScript's order of alternatives, of [r]
    from [st] followed by [k]. *)
Fixpoint run (r : regex) (st : mstate) (k : mstate -> option A) : option A :=
  match r with
  | Empty => k st
  | Lit p =>
      match rest st with
      | c :: t => if lit_match ci p c then k (MState (Some c) t (caps st)) else None
      | [] => None
      end
  | Cls cc =>
      match rest st with
      | c :: t => if cls_match ci cc c then k (MState (Some c) t (caps st)) else None
      | [] => None
      end
  | Cat r1 r2 => run r1 st (fun st' => run r2 st' k)
  | Star true cc => star_greedy cc (caps st) (prev st) (rest st) k
  | Star false cc => star_lazy cc (caps st) (prev st) (rest st) k
  | Group r1 =>
      run r1 st (fun st' =>
        k (MState (prev st') (rest st')
             (caps st' ++ [firstn (length (rest st) - length (rest st')) (rest st)])))
  | Bos => match prev st with None => k st | Some _ => None end
  | Eos => match rest st with [] => k st | _ :: _ => None end
  | WordB =>
      if xorb (word_at (prev st)) (word_at (hd_error (rest st))) then k st else None
  end.
End Matcher.

(** What [exec] returns on success: where the match starts, the matched
    text, and the texts of the capture groups ([m[1]], [m[2]], ...). *)
Record match_result := MatchResult { index : nat; matched : str; groups : list str }.

(** [RegExpBuiltinExec] without the [g] and [y] flags: the match at the
    leftmost start position, or nothing.  [i] is the position of [l] in the
    input and [p] the code unit before it. *)
Fixpoint search (ci : bool) (r : regex) (i : nat) (p : option ascii) (l : str)
    : option match_result :=
  match run ci r (MState p l []) (fun st => Some st) with
  | Some st =>
      Some (MatchResult i (firstn (length l - length (rest st)) l) (caps st))
  | None =>
      match l with
      | c :: t => search ci r (S i) (Some c) t
      | [] => None
      end
  end.

(** [s.match(re)] for a pattern without the [g] flag. *)
Definition exec (ci : bool) (r : regex) (s : str) : option match_result :=
  search ci r 0 None s.

(** [re.test(s)] *)
Definition test (ci : bool) (r : regex) (s : str) : bool :=
  match exec ci r s with
  | Some _ => true
  | None => false
  end.

(** [m[n]] for [n >= 1] (every group of the script's patterns takes part in
    every match, so none is undefined). *)
Definition group (n : nat) (m : match_result) : str := nth (n - 1) (groups m) [].

(** [s.replace(re, by)] for a pattern without the [g] flag and a
    replacement text without [$]. *)
Definition replace (ci : bool) (r : regex) (by_ : str) (s : str) : str :=
  match exec ci r s with
  | Some m => firstn (index m) s ++ by_ ++ skipn (index m + length (matched m)) s
  | None => s
  end.

End RegExp.

Import RegExp.

(** The global replacement [s.replace(/([a-z])([A-Z])/g, "$1 $2")]: matches
    are found from left to right and do not overlap, so the scan resumes
    after the upper-case letter of a match. *)
Fixpoint camelSpace (s : str) : str :=
  match s with
  | c1 :: ((c2 :: t) as s') =>
      if is_lower c1 && is_upper c2 then c1 :: " "%char :: c2 :: camelSpace t
      else c1 :: camelSpace s'
  | _ => s
  end.

(** ** Plain objects

    An object whose properties are created by assignment, as [row] in
    [parseTSV] and [months] in [main]: its own properties in creation
    order. *)

Module Obj.

Definition t (V : Type) := list (str * V).

Section Ops.
Variable V : Type.

(** [o[k]] for an own property; [None] is [undefined]. *)
Fixpoint get (k : str) (o : t V) : option V :=
  match o with
  | [] => None
  | (k', v) :: o' => if str_eqb k k' then Some v else get k o'
  end.

Definition has (k : str) (o : t V) : bool :=
  match get k o with Some _ => true | None => false end.

Fixpoint update (k : str) (v : V) (o : t V) : t V :=
  match o with
  | [] => []
  | (k', v') :: o' => if str_eqb k k' then (k', v) :: o' else (k', v') :: update k v o'
  end.

(** [o[k] = v].  An existing property keeps its place; a new one is
    created last.  The name [__proto__] is the accessor inherited from
    [Object.prototype]: assigning to it creates no own property. *)
Definition set (k : str) (v : V) (o : t V) : t V :=
  if str_eqb k "__proto__" then o
  else if has k o then update k v o
  else o ++ [(k, v)].

(** The value of a canonical array index (0, 1, ..., at most 2^32 - 2
    without leading zeros), the property names that [Object.keys] lists
    first. *)
Definition array_index (k : str) : option N :=
  match k with
  | [] => None
  | c :: t =>
      if forallb is_digit k
         && (negb (Ascii.eqb c "0") || match t with [] => true | _ => false end)
         && (digits_value k <? 4294967295)%N
      then Some (digits_value k)
      else None
  end.

Definition is_index (k : str) : bool :=
  match array_index k with Some _ => true | None => false end.

Definition index_value (k : str) : N :=
  match array_index k with Some n => n | None => 0%N end.

Fixpoint insert_index (k : str) (ks : list str) : list str :=
  match ks with
  | [] => [k]
  | k' :: ks' =>
      if (index_value k <=? index_value k')%N then k :: ks
      else k' :: insert_index k ks'
  end.

Definition sort_indices (ks : list str) : list str :=
  fold_right insert_index [] ks.

Definition names (o : t V) : list str := map fst o.

(** [Object.keys(o)]: the array indices in ascending order, then the
    other names in creation order. *)
Definition keys (o : t V) : list str :=
  sort_indices (filter is_index (names o))
  ++ filter (fun k => negb (is_index k)) (names o).
End Ops.

End Obj.

(** A parsed line of the export: field name to field text. *)
Definition row := Obj.t str.

(** ** parseTSV *)

Definition CR : ascii := ascii_of_nat 13.
Definition LF : ascii := ascii_of_nat 10.
Definition TAB : ascii := ascii_of_nat 9.

(** [.replace(/\r\n/g, "\n")] *)
Fixpoint replace_crlf (s : str) : str :=
  match s with
  | c1 :: ((c2 :: t) as s') =>
      if Ascii.eqb c1 CR && Ascii.eqb c2 LF then LF :: replace_crlf t
      else c1 :: replace_crlf s'
  | _ => s
  end.

(** [.replace(/\r/g, "\n")] *)
Definition replace_cr (s : str) : str :=
  map (fun c => if Ascii.eqb c CR then LF else c) s.

Definition nonblank (l : str) : bool :=
  match trim l with [] => false | _ :: _ => true end.

Definition tsvLines (tsvText : str) : list str :=
  filter nonblank (split LF (replace_cr (replace_crlf tsvText))).

(** The inner loop of [parseTSV]: [c] runs over the header, [parts[c]] is
    the value at the same position, [""] when the line has none. *)
Fixpoint fillRow (header : list str) (parts : list str) (r : row) : row :=
  match header with
  | [] => r
  | h :: header' =>
      fillRow header' (tl parts) (Obj.set h (trim (hd [] parts)) r)
  end.

Definition rowOfLine (header : list str) (line : str) : row :=
  fillRow header (split TAB line) [].

Definition parseTSV (tsvText : str) : list row :=
  match tsvLines tsvText with
  | [] => []
  | first :: others =>
      let header := map trim (split TAB first) in
      map (rowOfLine header) others
  end.

(** ** prettyFromLocRegion, prettyFromFishRef *)

(** [/^LocRegion/i] *)
Definition re_LocRegion_prefix : regex := Cat Bos (lits "LocRegion").

(** [String(x || "")] for a property that is a text or [undefined]. *)
Definition orEmpty (x : option str) : str :=
  match x with Some s => s | None => [] end.

Definition prettyFromLocRegion (keyword : str) : str :=
  let s := trim keyword in
  let s := replace true re_LocRegion_prefix [] s in
  trim (camelSpace s).

(** [/:([^:]+):FISH\b/i] *)
Definition cc_not_colon : charclass := CharClass true [one ":"%char].

Definition re_fish : regex :=
  cats [Lit ":"; Group (Plus true cc_not_colon); lits ":FISH"; WordB].

(** [parts[parts.length - 1] || ""] *)
Definition lastPart (parts : list str) : str := last parts [].

Definition prettyFromFishRef (lvloRef : option str) : str :=
  let ref := orEmpty lvloRef in
  match exec true re_fish ref with
  | None => []
  | Some m =>
      let edid := group 1 m in
      let parts := split "_" edid in
      trim (camelSpace (lastPart parts))
  end.

(** ** extractMonthIndex, extractRegions *)

(** [/^Cond\d+$/i] *)
Definition re_cond : regex := cats [Bos; lits "Cond"; Plus true cc_digit; Eos].

Definition isCondKey (k : str) : bool := test true re_cond k.

(** [/MonthlyIndex\s+\[GLOB:[0-9A-F]+\].*?(\d+)\.000000\b/i] *)
Definition cc_hex : charclass := CharClass false [("0", "9"); ("A", "F")]%char.

Definition re_month : regex :=
  cats [lits "MonthlyIndex"; Plus true cc_space; lits "[GLOB:"; Plus true cc_hex;
        Lit "]"; Star false cc_dot; Group (Plus true cc_digit); lits ".000000"; WordB].

Definition monthMarker : str := "LCP_Fishing_Axolotl_MonthlyIndex".

(** The numbers of the script all come from [Number(d)] on a text [d] of
    decimal digits: they are the whole numbers that a double holds, and
    [Infinity]. *)
Inductive number := Finite (n : N) | Infinity.

Coercion Finite : N >-> number.

(** The double nearest to a whole number: below 2^53 the number itself;
    above, the 53 leading bits, rounded to nearest with ties to the even
    significand; [Infinity] when that reaches 2^1024. *)
Definition round_double (n : N) : number :=
  if (n <? 2 ^ 53)%N then Finite n
  else
    let e := (N.log2 n - 52)%N in
    let q := N.shiftr n e in
    let rest := (n mod 2 ^ e)%N in
    let half := (2 ^ (e - 1))%N in
    let q' := if (half <? rest)%N || ((rest =? half)%N && N.odd q)
              then (q + 1)%N else q in
    if (q' * 2 ^ e <? 2 ^ 1024)%N then Finite (q' * 2 ^ e) else Infinity.

(** [Number(d)] for a text [d] of decimal digits: the double nearest to
    the value of the numeral. *)
Definition Number (d : str) : number := round_double (digits_value d).

(** What one condition text gives: the number after the marker, if the
    text has the marker and the pattern matches. *)
Definition monthOfCond (s : str) : option number :=
  if includes monthMarker s then
    match exec true re_month s with
    | Some mm => Some (Number (group 1 mm))
    | None => None
    end
  else None.

Definition isEmpty (s : str) : bool :=
  match s with [] => true | _ :: _ => false end.

(** The loop of [extractMonthIndex] over [Object.keys(row)]; [None] is
    [null]. *)
Fixpoint extractMonthIndex_loop (r : row) (ks : list str) : option number :=
  match ks with
  | [] => None
  | k :: ks' =>
      if negb (isCondKey k) then extractMonthIndex_loop r ks'
      else
        let s := orEmpty (Obj.get k r) in
        if isEmpty s then extractMonthIndex_loop r ks'
        else
          match monthOfCond s with
          | Some n => Some n
          | None => extractMonthIndex_loop r ks'
          end
  end.

Definition extractMonthIndex (r : row) : option number :=
  extractMonthIndex_loop r (Obj.keys r).

(** [/\b(LocRegion[A-Za-z0-9_]+)\s+\[KYWD:/] *)
Definition cc_ident : charclass :=
  CharClass false [("A", "Z"); ("a", "z"); ("0", "9"); ("_", "_")]%char.

Definition re_region : regex :=
  cats [WordB; Group (Cat (lits "LocRegion") (Plus true cc_ident));
        Plus true cc_space; lits "[KYWD:"].

(** A [Set] of texts: [add] keeps the first occurrence, [Array.from] lists
    the members in insertion order. *)
Definition set_has (x : str) (s : list str) : bool := existsb (str_eqb x) s.

Definition set_add (x : str) (s : list str) : list str :=
  if set_has x s then s else s ++ [x].

(** What one condition text adds to the set. *)
Definition regionOfCond (s : str) : option str :=
  match exec false re_region s with
  | Some m => Some (prettyFromLocRegion (group 1 m))
  | None => None
  end.

Fixpoint extractRegions_loop (r : row) (ks : list str) (regions : list str) : list str :=
  match ks with
  | [] => regions
  | k :: ks' =>
      if negb (isCondKey k) then extractRegions_loop r ks' regions
      else
        let s := orEmpty (Obj.get k r) in
        if isEmpty s then extractRegions_loop r ks' regions
        else
          match regionOfCond s with
          | Some pretty =>
              if isEmpty pretty then extractRegions_loop r ks' regions
              else extractRegions_loop r ks' (set_add pretty regions)
          | None => extractRegions_loop r ks' regions
          end
  end.

Definition extractRegions (r : row) : list str :=
  extractRegions_loop r (Obj.keys r) [].

(** ** The file system and pickLatestLvliEntriesTsv

    A directory tree of regular files and directories.  A path is the list
    of the names below the repository root, so [path.join(dir, name)] adds
    a name at the end and [path.basename(p)] is the last name.  A
    modification time ([mtimeMs]) is a finite number; only the order of two
    times is ever used, and an integer stands for it. *)

#[warnings="-register-all"]
Inductive fsnode :=
| FFile (mtime : Z) (content : str)
| FDir (items : list (str * fsnode)).

(** An induction principle for trees: a directory has the property when
    all its items have it. *)
Fixpoint fsnode_tree_ind (P : fsnode -> Prop)
    (Hfile : forall t c, P (FFile t c))
    (Hdir : forall items, Forall (fun e => P (snd e)) items -> P (FDir items))
    (d : fsnode) {struct d} : P d :=
  match d with
  | FFile t c => Hfile t c
  | FDir items =>
      Hdir items
        ((fix each (l : list (str * fsnode)) : Forall (fun e => P (snd e)) l :=
            match l with
            | [] => Forall_nil _
            | e :: l' =>
                Forall_cons e
                  (match e return P (snd e) with
                   | (_, it) => fsnode_tree_ind P Hfile Hdir it
                   end)
                  (each l')
            end) items)
  end.

Definition path := list str.

Definition join (dir : path) (name : str) : path := dir ++ [name].

Definition basename (p : path) : str := last p [].

Fixpoint child (name : str) (items : list (str * fsnode)) : option fsnode :=
  match items with
  | [] => None
  | (n, it) :: items' => if str_eqb name n then Some it else child name items'
  end.

Fixpoint lookup (root : fsnode) (p : path) : option fsnode :=
  match p with
  | [] => Some root
  | name :: p' =>
      match root with
      | FDir items =>
          match child name items with
          | Some it => lookup it p'
          | None => None
          end
      | FFile _ _ => None
      end
  end.

(** [fs.existsSync(p)] *)
Definition existsSync (root : fsnode) (p : path) : bool :=
  match lookup root p with Some _ => true | None => false end.

(** [fs.statSync(p).mtimeMs], for a path that exists. *)
Definition mtimeMs (root : fsnode) (p : path) : Z :=
  match lookup root p with
  | Some (FFile t _) => t
  | _ => 0%Z
  end.

(** [fs.readFileSync(p, "latin1")], for a path that exists. *)
Definition readTextLatin1 (root : fsnode) (p : path) : str :=
  match lookup root p with
  | Some (FFile _ text) => text
  | _ => []
  end.

(** [listFilesRecursive(dir)], given the node [d] that [dir] names. *)
Fixpoint listFilesRecursive (dir : path) (d : fsnode) {struct d} : list path :=
  match d with
  | FDir items =>
      (fix each (items : list (str * fsnode)) : list path :=
         match items with
         | [] => []
         | (name, it) :: items' =>
             let p := join dir name in
             match it with
             | FDir _ => listFilesRecursive p it
             | FFile _ _ => [p]
             end ++ each items'
         end) items
  | FFile _ _ => []
  end.

(** [/LVLI_Export_.*_LVLI_Entries\.tsv$/i] *)
Definition re_entries : regex :=
  cats [lits "LVLI_Export_"; Star true cc_dot; lits "_LVLI_Entries.tsv"; Eos].

Definition isEntriesTsv (p : path) : bool := test true re_entries (basename p).

(** [Array.prototype.sort] with a comparator [cmp]: the sort is stable, and
    [a] stays before [b] unless [cmp a b > 0]. *)
Section Sort.
Variable T : Type.
Variable cmp : T -> T -> Z.

Fixpoint sort_insert (a : T) (l : list T) : list T :=
  match l with
  | [] => [a]
  | b :: l' => if (cmp a b <=? 0)%Z then a :: l else b :: sort_insert a l'
  end.

Definition sort (l : list T) : list T := fold_right sort_insert [] l.
End Sort.

(** The errors the script throws. *)
Inductive error :=
| MissingTsvFolder    (* Missing tsv/ folder *)
| NotADirectory       (* readdirSync on a regular file *)
| NoEntriesTsv        (* No LVLI_Export_*_LVLI_Entries.tsv found *)
| NoAxolotlRows.      (* No rows found for LVLI_EDID=... *)

Inductive result (T : Type) :=
| Ok (x : T)
| Throw (e : error).
Arguments Ok {T} x.
Arguments Throw {T} e.

Definition pickLatestLvliEntriesTsv (repoRoot : fsnode) : result path :=
  let tsvRoot := join [] "tsv" in
  match lookup repoRoot tsvRoot with
  | None => Throw MissingTsvFolder
  | Some (FFile _ _) => Throw NotADirectory
  | Some (FDir items) =>
      let all := listFilesRecursive tsvRoot (FDir items) in
      let matches := filter isEntriesTsv all in
      match sort (fun a b => (mtimeMs repoRoot b - mtimeMs repoRoot a)%Z) matches with
      | [] => Throw NoEntriesTsv
      | newest :: _ => Ok newest
      end
  end.

(** ** main *)

Record entry := Entry { name : str; regions : list str; image : option str }.

Definition targetList : str := "Fishing_LLS_FishCollection_Axolotls".

Definition isAxoRow (r : row) : bool :=
  str_eqb (trim (orEmpty (Obj.get "LVLI_EDID" r))) targetList.

(** [String(idx)] for a whole number. *)
Definition digit_char (n : N) : ascii := ascii_of_N (48 + n).

Fixpoint decimal_digits (fuel : nat) (n : N) (acc : str) : str :=
  match fuel with
  | O => acc
  | S fuel' =>
      let acc' := digit_char (n mod 10) :: acc in
      if (n / 10 =? 0)%N then acc' else decimal_digits fuel' (n / 10) acc'
  end.

Definition String_of (n : N) : str := decimal_digits (S (N.to_nat (N.log2 n))) n [].

(** [String(idx)] for a number: the decimal digits of a whole number (the
    script prints months only; from 10^21 on JavaScript writes an
    exponent), and the word Infinity. *)
Definition String_of_number (x : number) : str :=
  match x with
  | Finite n => String_of n
  | Infinity => "Infinity"
  end.

(** [!x] and [x < y] on numbers. *)
Definition num_not (x : number) : bool :=
  match x with
  | Finite n => (n =? 0)%N
  | Infinity => false
  end.

Definition num_ltb (x y : number) : bool :=
  match x, y with
  | Finite a, Finite b => (a <? b)%N
  | Finite _, Infinity => true
  | Infinity, _ => false
  end.

(** [!idx || idx < 1 || idx > 12], for what [extractMonthIndex] returned. *)
Definition skipped (idx : option number) : bool :=
  match idx with
  | None => true
  | Some x => num_not x || num_ltb x 1%N || num_ltb 12%N x
  end.

Definition entryOf (r : row) : entry :=
  let name := prettyFromFishRef (Obj.get "LVLO_Reference" r) in
  let regions := extractRegions r in
  Entry (if isEmpty name then "TBA" else name) regions None.

(** The loop of [main] over the rows of the target list. *)
Fixpoint fillMonths (axoRows : list row) (months : Obj.t entry) : Obj.t entry :=
  match axoRows with
  | [] => months
  | r :: axoRows' =>
      let idx := extractMonthIndex r in
      if skipped idx then fillMonths axoRows' months
      else
        match idx with
        | Some x => fillMonths axoRows' (Obj.set (String_of_number x) (entryOf r) months)
        | None => fillMonths axoRows' months
        end
  end.

Record payload := Payload {
  schemaVersion : N;
  generatedAt : str;
  timezone : str;
  rolloverTimeLocal : str;
  months : Obj.t entry
}.

(** What a run leaves behind: the document written to
    dist/axolotl-rotations.json and the number of months of the warning,
    when there is one. *)
Record output := Output { written : payload; warning : option nat }.

(** From the parsed rows on. *)
Definition rotations (now : str) (rows : list row) : result output :=
  let axoRows := filter isAxoRow rows in
  match axoRows with
  | [] => Throw NoAxolotlRows
  | _ :: _ =>
      let months := fillMonths axoRows [] in
      let found := length (Obj.keys months) in
      Ok (Output (Payload 1 now "America/New_York" "12:00:00" months)
                 (if (found =? 12)%nat then None else Some found))
  end.

(** [main], run in the directory [repoRoot] at the time [now]. *)
Definition main (repoRoot : fsnode) (now : str) : result output :=
  match pickLatestLvliEntriesTsv repoRoot with
  | Throw e => Throw e
  | Ok entriesPath =>
      let tsv := readTextLatin1 repoRoot entriesPath in
      let rows := parseTSV tsv in
      rotations now rows
  end.

(** ** The notions that the statements are made of

    Positions and occurrences in a text, the shapes of the condition texts
    of an export, and what a field or a record gives. *)

(** A text [b] ends the text [a]. *)
Definition suffix (b a : str) : Prop := exists c, a = c ++ b.

(** The code unit before the position reached after reading [w]. *)
Fixpoint prev_after (p : option ascii) (w : str) : option ascii :=
  match w with
  | [] => p
  | c :: t => prev_after (Some c) t
  end.

(** The text starts with the pattern text [w], under the flag [ci]. *)
Fixpoint lits_match (ci : bool) (w s : str) : bool :=
  match w, s with
  | [], _ => true
  | x :: w', y :: s' => lit_match ci x y && lits_match ci w' s'
  | _ :: _, [] => false
  end.

(** The pattern text [w] stands somewhere in [s], under the flag [ci]. *)
Fixpoint lits_occur (ci : bool) (w s : str) : bool :=
  lits_match ci w s ||
  match s with
  | [] => false
  | _ :: t => lits_occur ci w t
  end.

(** The run of a quantifier ends before [l]. *)
Definition stops (ci : bool) (cc : charclass) (l : str) : bool :=
  match l with
  | [] => true
  | c :: _ => negb (cls_match ci cc c)
  end.


(** A pattern that can only match where the literal text [w] stands. *)
Definition begins_with (ci : bool) (r : regex) (w : str) : Prop :=
  forall st x, run ci r st (fun st' => Some st') = Some x ->
               lits_match ci w (rest st) = true.





(** The condition field [k] gives nothing: it is not a condition field, or
    its text has no marker or no numeral after it. *)
Definition givesNoMonth (r : row) (k : str) : bool :=
  negb (isCondKey k)
  || match monthOfCond (orEmpty (Obj.get k r)) with Some _ => false | None => true end.

(** [k] is a condition field among [ks], and no field listed before it
    gives a number. *)
Fixpoint firstHitIn (r : row) (ks : list str) (k : str) : bool :=
  match ks with
  | [] => false
  | k' :: ks' =>
      if str_eqb k' k then isCondKey k
      else givesNoMonth r k' && firstHitIn r ks' k
  end.

(** The same in the enumeration order of the record's field names. *)
Definition firstHit (r : row) (k : str) : bool := firstHitIn r (Obj.keys r) k.


(** The tag that the condition field [k] of [r] adds, if any. *)
Definition tagOfField (r : row) (k : str) : option str :=
  if isCondKey k then
    match regionOfCond (orEmpty (Obj.get k r)) with
    | Some pretty => if isEmpty pretty then None else Some pretty
    | None => None
    end
  else None.

(** A condition text with a region token: some text, LocRegion and an
    identifier, white space, and the bracket of the keyword reference. *)
Definition regionCond (pre ident ws post : str) : str :=
  pre ++ "LocRegion" ++ ident ++ ws ++ "[KYWD:" ++ post.

(** The side conditions: the token is the first LocRegion of the text and
    does not follow a word character; the identifier is made of word
    characters and [ws] of white space, neither empty. *)
Definition regionCondOk (pre ident ws : str) : bool :=
  negb (lits_occur false "LocRegion" (pre ++ "LocRegio"))
  && negb (word_at (prev_after None pre))
  && negb (isEmpty ident) && forallb is_word ident
  && negb (isEmpty ws) && forallb is_space ws.

(** A number that [main] keeps: a month, from 1 to 12. *)
Definition validMonth (idx : option number) : bool :=
  match idx with
  | Some (Finite n) => (1 <=? n)%N && (n <=? 12)%N
  | Some Infinity => false
  | None => false
  end.

(** The record yields the number [n]. *)
Definition yields (n : N) (r : row) : bool :=
  match extractMonthIndex r with
  | Some (Finite m) => (m =? n)%N
  | Some Infinity => false
  | None => false
  end.

(** The export files under tsv/: the candidates of the selection. *)
Definition candidates (items : list (str * fsnode)) : list path :=
  filter isEntriesTsv (listFilesRecursive (join [] "tsv") (FDir items)).

(** The field names of an export: its first line that is not blank. *)
Definition headerOf (tsvText : str) : list str :=
  map trim (split TAB (hd [] (tsvLines tsvText))).

(** No directory of the tree holds a name twice. *)
Fixpoint distinct_names (d : fsnode) : Prop :=
  match d with
  | FFile _ _ => True
  | FDir items =>
      NoDup (map fst items)
      /\ (fix each (l : list (str * fsnode)) : Prop :=
            match l with
            | [] => True
            | (_, it) :: l' => distinct_names it /\ each l'
            end) items
  end.

(** Sample input: an export with three rows of the target list (two of
    them for the same month, one with a number that is no month) and a row
    of another list. *)
Module Sample.

Definition row7 : str :=
  "Fishing_LLS_FishCollection_Axolotls" ++ [TAB]
  ++ "0080070C:Fishing_Fish_Small_Axolotl01_CharcoalAxolotl:FISH" ++ [TAB]
  ++ "LCP_Fishing_Axolotl_MonthlyIndex [GLOB:0080F5A1] == 7.000000" ++ [TAB]
  ++ "LocRegionForestFloodlands [KYWD:007AE59D]".

Definition row13 : str :=
  "Fishing_LLS_FishCollection_Axolotls" ++ [TAB]
  ++ "0080070D:Fishing_Fish_Small_Axolotl02_PinkAxolotl:FISH" ++ [TAB]
  ++ "LCP_Fishing_Axolotl_MonthlyIndex [GLOB:0080F5A1] == 13.000000" ++ [TAB]
  ++ "LocRegionBurningSprings [KYWD:007AE59E]".

Definition row7again : str :=
  "Fishing_LLS_FishCollection_Axolotls" ++ [TAB]
  ++ "0080070E:Fishing_Fish_Small_Axolotl03_GoldenAxolotl:MISC" ++ [TAB]
  ++ "LCP_Fishing_Axolotl_MonthlyIndex [GLOB:0080F5A1] == 7.000000" ++ [TAB]
  ++ "LocRegionBurningSprings [KYWD:007AE59E]".

Definition rowOther : str :=
  "Fishing_LLS_FishCollection_Other" ++ [TAB]
  ++ "0080070F:Fishing_Fish_Small_Trout:FISH" ++ [TAB]
  ++ "LCP_Fishing_Axolotl_MonthlyIndex [GLOB:0080F5A1] == 2.000000" ++ [TAB].

Definition header : str :=
  "LVLI_EDID" ++ [TAB] ++ "LVLO_Reference" ++ [TAB] ++ "Cond1" ++ [TAB] ++ "Cond2".

Definition tsv : str :=
  header ++ [CR; LF] ++ row7 ++ [CR; LF] ++ row13 ++ [CR; LF] ++ rowOther ++ [CR; LF]
  ++ row7again ++ [CR; LF].

Definition otherTsv : str := header ++ [LF] ++ rowOther ++ [LF].

(** tsv/ holds an old export, a newer one in a folder, and a file that is
    not an export. *)
Definition repoRoot : fsnode :=
  FDir [("tools", FDir [("build-axolotl-rotations-json.mjs", FFile 50 [])]);
        ("tsv",
         FDir [("LVLI_Export_Jan_2026_LVLI_Entries.tsv", FFile 100 otherTsv);
               ("2026-02", FDir [("LVLI_Export_Feb_2026_LVLI_Entries.tsv", FFile 300 tsv);
                                 ("notes.txt", FFile 400 [])]);
               ("lvli_export_Dec_2025_lvli_entries.TSV", FFile 200 otherTsv)])].

Definition rows : list row := parseTSV tsv.

End Sample.

(** ** Further notions *)

(** [w'] is the pattern text [w] up to the case of its letters. *)
Definition same_ci (w w' : str) : bool :=
  (length w =? length w')%nat && lits_match true w w'.


(** What the parts of a matched region token satisfy: the token does not
    follow a word character, its identifier is made of word characters,
    and white space separates it from the bracket. *)
Definition regionMatchOk (pre ident ws : str) : bool :=
  negb (word_at (prev_after None pre))
  && negb (isEmpty ident) && forallb is_word ident
  && negb (isEmpty ws) && forallb is_space ws.

(** A reference in the shape id:identifier:FISH: an id without a colon, an
    identifier without a colon, the tag FISH in any letter case, and the
    rest. *)
Definition fishRef (id edid tag post : str) : str :=
  id ++ ":" ++ edid ++ ":" ++ tag ++ post.

Definition fishRefOk (id edid tag post : str) : bool :=
  forallb (fun c => negb (Ascii.eqb c ":")) id
  && negb (isEmpty edid) && forallb (fun c => negb (Ascii.eqb c ":")) edid
  && same_ci "FISH" tag
  && negb (word_at (hd_error post)).

(** No lower-case letter of the text is directly followed by an upper-case
    one. *)
Fixpoint no_hump (s : str) : bool :=
  match s with
  | c1 :: ((c2 :: _) as t) => negb (is_lower c1 && is_upper c2) && no_hump t
  | _ => true
  end.

(** The text without its blanks. *)
Definition unspaced (s : str) : str :=
  filter (fun c => negb (Ascii.eqb c " ")) s.

(** Lines put together with one kind of line break between them. *)
Fixpoint joinLines (sep : str) (ls : list str) : str :=
  match ls with
  | [] => []
  | l :: ls' =>
      match ls' with
      | [] => l
      | _ :: _ => l ++ sep ++ joinLines sep ls'
      end
  end.

(** A line without a line break in it. *)
Definition plainLine (l : str) : bool :=
  forallb (fun c => negb (Ascii.eqb c CR) && negb (Ascii.eqb c LF)) l.

(** The keys of a complete table. *)
Definition monthKeys : list str :=
  map String_of [1; 2; 3; 4; 5; 6; 7; 8; 9; 10; 11; 12]%N.

(** The items of tsv/ in the sample repository. *)
Definition sampleTsvItems : list (str * fsnode) :=
  [("LVLI_Export_Jan_2026_LVLI_Entries.tsv", FFile 100 Sample.otherTsv);
   ("2026-02",
    FDir [("LVLI_Export_Feb_2026_LVLI_Entries.tsv", FFile 300 Sample.tsv);
          ("notes.txt", FFile 400 [])]);
   ("lvli_export_Dec_2025_lvli_entries.TSV", FFile 200 Sample.otherTsv)].

(** What the run on the sample rows leaves behind. *)
Definition sampleEntry : entry := Entry "TBA" ["Burning Springs"] None.

Definition sampleOut : output :=
  Output (Payload 1 "now" "America/New_York" "12:00:00" [("7", sampleEntry)]) (Some 1).

(** * Properties *)

(** ** Code units and texts *)

Lemma str_eqb_refl (a : str) : str_eqb a a = true.
Proof.
  induction a as [|c a IH]; simpl; [reflexivity|].
  now rewrite Ascii.eqb_refl.
Qed.

Lemma str_eqb_eq (a b : str) : str_eqb a b = true <-> a = b.
Proof.
  split.
  - revert b; induction a as [|x a IH]; intros [|y b] H; simpl in H;
      try discriminate; [reflexivity|].
    apply andb_true_iff in H as [H1 H2].
    apply Ascii.eqb_eq in H1. apply IH in H2. now subst.
  - intros ->. apply str_eqb_refl.
Qed.

Lemma str_eqb_neq (a b : str) : str_eqb a b = false <-> a <> b.
Proof.
  split.
  - intros H E. apply str_eqb_eq in E. congruence.
  - intros H. destruct (str_eqb a b) eqn:E; [|reflexivity].
    apply str_eqb_eq in E. contradiction.
Qed.




Lemma suffix_length (a b : str) : suffix a b -> length a <= length b.
Proof. intros [x ->]. rewrite length_app. lia. Qed.

(** ** The matcher *)

Module RegExpFacts.

Arguments cls_match : simpl never.
Arguments lit_match : simpl never.

Lemma prev_after_app (p : option ascii) (a b : str) :
  prev_after p (a ++ b) = prev_after (prev_after p a) b.
Proof. revert p; induction a as [|c a IH]; intros p; simpl; [reflexivity|apply IH]. Qed.

Lemma lit_match_refl (ci : bool) (c : ascii) : lit_match ci c c = true.
Proof. apply Ascii.eqb_refl. Qed.

Lemma lits_match_short (ci : bool) (w x y : str) :
  length w <= length x -> lits_match ci w (x ++ y) = lits_match ci w x.
Proof.
  revert x; induction w as [|c w IH]; intros [|d x] H; simpl in *;
    try reflexivity; try lia.
  rewrite IH by lia. reflexivity.
Qed.

Lemma lits_occur_suffix (ci : bool) (w a b : str) :
  lits_match ci w b = true -> lits_occur ci w (a ++ b) = true.
Proof.
  intros H. induction a as [|c a IH]; simpl.
  - destruct b; simpl; now rewrite H.
  - rewrite IH. apply orb_true_r.
Qed.

Section Run.
Variable A : Type.
Variable ci : bool.
Implicit Types (k : mstate -> option A) (r : regex) (cc : charclass).

Lemma run_lits (w : str) : forall p l cs k,
  run ci (lits w) (MState p (w ++ l) cs) k = k (MState (prev_after p w) l cs).
Proof.
  induction w as [|c w IH]; intros p l cs k; simpl; [reflexivity|].
  rewrite lit_match_refl. apply IH.
Qed.

Lemma run_cat_lits (w : str) r p l cs k :
  run ci (Cat (lits w) r) (MState p (w ++ l) cs) k
  = run ci r (MState (prev_after p w) l cs) k.
Proof. simpl. apply run_lits. Qed.

Lemma run_lits_inv (w : str) : forall st k x,
  run ci (lits w) st k = Some x -> lits_match ci w (rest st) = true.
Proof.
  induction w as [|c w IH]; intros [p l cs] k x H; simpl in *; [reflexivity|].
  destruct l as [|d l]; [discriminate|].
  destruct (lit_match ci c d); [|discriminate].
  apply IH in H. exact H.
Qed.

(** A pattern that begins with a literal text matches only where that
    text stands. *)
Lemma run_cat_lits_inv (w : str) r st k x :
  run ci (Cat (lits w) r) st k = Some x -> lits_match ci w (rest st) = true.
Proof. simpl. apply run_lits_inv. Qed.

(** A greedy quantifier takes the whole run [w] when what follows the
    pattern succeeds after it. *)
Lemma star_greedy_take cc (w : str) : forall p l cs k x,
  forallb (cls_match ci cc) w = true ->
  stops ci cc l = true ->
  k (MState (prev_after p w) l cs) = Some x ->
  star_greedy ci cc cs p (w ++ l) k = Some x.
Proof.
  induction w as [|c w IH]; intros p l cs k x Hw Hl Hk; simpl in *.
  - destruct l as [|d l]; simpl in *; [exact Hk|].
    apply negb_true_iff in Hl. rewrite Hl. exact Hk.
  - apply andb_true_iff in Hw as [Hc Hw]. rewrite Hc.
    rewrite (IH (Some c) l cs k x Hw Hl Hk). reflexivity.
Qed.

Lemma run_cat_plus_greedy cc r (w : str) p l cs k x :
  w <> [] ->
  forallb (cls_match ci cc) w = true ->
  stops ci cc l = true ->
  run ci r (MState (prev_after p w) l cs) k = Some x ->
  run ci (Cat (Plus true cc) r) (MState p (w ++ l) cs) k = Some x.
Proof.
  intros Hne Hw Hl Hk. destruct w as [|c w]; [contradiction|].
  simpl in Hw. apply andb_true_iff in Hw as [Hc Hw].
  simpl. rewrite Hc. now apply star_greedy_take.
Qed.




End Run.


(** The search passes over a stretch of the input in which the pattern
    matches nowhere. *)
Lemma search_skip (ci : bool) (r : regex) (pre : str) : forall i p l,
  (forall a b, pre = a ++ b -> b <> [] ->
     run ci r (MState (prev_after p a) (b ++ l) []) (fun st => Some st) = None) ->
  search ci r i p (pre ++ l) = search ci r (i + length pre) (prev_after p pre) l.
Proof.
  induction pre as [|c pre IH]; intros i p l H.
  - simpl. now rewrite Nat.add_0_r.
  - assert (H0 : run ci r (MState p (c :: pre ++ l) []) (fun st => Some st) = None)
      by (apply (H [] (c :: pre) eq_refl); discriminate).
    change ((c :: pre) ++ l) with (c :: (pre ++ l)).
    simpl. rewrite H0, IH.
    + f_equal. lia.
    + intros a b -> Hb. apply (H (c :: a) b eq_refl Hb).
Qed.

Lemma search_here (ci : bool) (r : regex) i p l st :
  run ci r (MState p l []) (fun st => Some st) = Some st ->
  search ci r i p l
  = Some (MatchResult i (firstn (length l - length (rest st)) l) (caps st)).
Proof. intros H. destruct l; simpl; now rewrite H. Qed.

Lemma search_eq (ci : bool) (r : regex) i p l :
  search ci r i p l =
  match run ci r (MState p l []) (fun st => Some st) with
  | Some st => Some (MatchResult i (firstn (length l - length (rest st)) l) (caps st))
  | None => match l with
            | c :: t => search ci r (S i) (Some c) t
            | [] => None
            end
  end.
Proof. destruct l; reflexivity. Qed.

(** A pattern that begins with a literal text matches nothing in a text
    in which that literal does not occur. *)
Lemma search_none (ci : bool) (w : str) (r : regex) : forall l i p,
  lits_occur ci w l = false -> search ci (Cat (lits w) r) i p l = None.
Proof.
  induction l as [|c l IH]; intros i p H; rewrite search_eq;
    simpl in H; apply orb_false_iff in H as [H1 H2];
    destruct (run ci (Cat (lits w) r) _ (fun st => Some st)) eqn:E.
  - apply run_cat_lits_inv in E. simpl in E. congruence.
  - reflexivity.
  - apply run_cat_lits_inv in E. simpl in E. congruence.
  - apply IH. exact H2.
Qed.


Lemma lits_occur_false_suffix (ci : bool) (w a b : str) :
  lits_occur ci w (a ++ b) = false -> lits_occur ci w b = false.
Proof.
  induction a as [|c a IH]; simpl; intros H; [exact H|].
  apply orb_false_iff in H as [_ H]. now apply IH.
Qed.

Lemma lits_occur_false_here (ci : bool) (w l : str) :
  lits_occur ci w l = false -> lits_match ci w l = false.
Proof. destruct l; simpl; intros H; now apply orb_false_iff in H as [H _]. Qed.

Lemma run_lits_split (A : Type) (ci : bool) (w : str) :
  forall (st : mstate) (k : mstate -> option A) (x : A),
    run ci (lits w) st k = Some x ->
    exists w' l,
      rest st = w' ++ l /\ length w' = length w /\ lits_match ci w w' = true
      /\ k (MState (prev_after (prev st) w') l (caps st)) = Some x.
Proof.
  induction w as [|c w IH]; intros [p l cs] k x H; simpl in H.
  - exists [], l. repeat split. exact H.
  - destruct l as [|d l]; [discriminate|].
    destruct (lit_match ci c d) eqn:E; [|discriminate].
    apply IH in H as (w' & l' & H1 & H2 & H3 & H4). simpl in *.
    exists (d :: w'), l'. subst l. simpl. rewrite E, H2, H3. repeat split. exact H4.
Qed.

(** Folding the case of a code unit keeps it a word character or not, and
    only the colon folds to the colon. *)
Lemma is_word_to_upper (c : ascii) : is_word (to_upper c) = is_word c.
Proof. destruct c as [[] [] [] [] [] [] [] []]; reflexivity. Qed.

Lemma to_upper_colon (c : ascii) : to_upper c = ":"%char -> c = ":"%char.
Proof. destruct c as [[] [] [] [] [] [] [] []]; vm_compute; congruence. Qed.

Lemma lit_match_word (p c : ascii) :
  lit_match true p c = true -> is_word c = is_word p.
Proof.
  unfold lit_match, canon. intros H. apply Ascii.eqb_eq in H.
  rewrite <- (is_word_to_upper c), <- (is_word_to_upper p). now rewrite H.
Qed.

Lemma lit_match_colon (c : ascii) : lit_match true ":" c = true -> c = ":"%char.
Proof.
  unfold lit_match, canon. intros H. apply Ascii.eqb_eq in H.
  apply to_upper_colon. now rewrite <- H.
Qed.


Lemma cls_space_cs (c : ascii) : cls_match false cc_space c = is_space c.
Proof. destruct c as [[] [] [] [] [] [] [] []]; reflexivity. Qed.

Lemma cls_digit (c : ascii) : cls_match true cc_digit c = is_digit c.
Proof. destruct c as [[] [] [] [] [] [] [] []]; reflexivity. Qed.

Lemma cls_dot (c : ascii) : cls_match true cc_dot c = negb (is_line_terminator c).
Proof. destruct c as [[] [] [] [] [] [] [] []]; reflexivity. Qed.

Lemma forallb_eq (T : Type) (f g : T -> bool) (l : list T) :
  (forall x, f x = g x) -> forallb f l = forallb g l.
Proof. intros H. induction l as [|x l IH]; simpl; [reflexivity|]. now rewrite H, IH. Qed.

Section RunMore.
Variable A : Type.
Variable ci : bool.
Implicit Types (k : mstate -> option A) (r : regex) (cc : charclass).

Lemma run_cat_lit (c : ascii) r p l cs k :
  run ci (Cat (Lit c) r) (MState p (c :: l) cs) k = run ci r (MState (Some c) l cs) k.
Proof. simpl. now rewrite lit_match_refl. Qed.



Lemma firstn_consumed (w l : str) : firstn (length (w ++ l) - length l) (w ++ l) = w.
Proof.
  rewrite length_app.
  replace (length w + length l - length l) with (length w + 0) by lia.
  rewrite firstn_app_2. simpl. apply app_nil_r.
Qed.

Lemma run_cat_group_plus_greedy cc r (w : str) p l cs k x :
  w <> [] ->
  forallb (cls_match ci cc) w = true ->
  stops ci cc l = true ->
  run ci r (MState (prev_after p w) l (cs ++ [w])) k = Some x ->
  run ci (Cat (Group (Plus true cc)) r) (MState p (w ++ l) cs) k = Some x.
Proof.
  intros Hne Hw Hl Hk.
  change (run ci (Cat (Group (Plus true cc)) r) (MState p (w ++ l) cs) k)
    with (run ci (Cat (Plus true cc) Empty) (MState p (w ++ l) cs)
            (fun st' =>
               run ci r (MState (prev st') (rest st')
                 (caps st' ++ [firstn (length (w ++ l) - length (rest st')) (w ++ l)])) k)).
  apply run_cat_plus_greedy; try assumption.
  simpl. rewrite firstn_consumed. exact Hk.
Qed.
End RunMore.

(** The search passes over [pre] when the literal that the pattern begins
    with does not occur before the end of [pre ++ y], where [y] is long
    enough for any occurrence that starts in [pre] to end in it. *)
Lemma search_skip_lits (ci : bool) (r : regex) (w pre y l : str) i p :
  begins_with ci r w ->
  length w <= S (length y) ->
  lits_occur ci w (pre ++ y) = false ->
  search ci r i p (pre ++ y ++ l)
  = search ci r (i + length pre) (prev_after p pre) (y ++ l).
Proof.
  intros B Hlen Hocc. apply search_skip. intros a b -> Hb.
  destruct (run ci r _ (fun st => Some st)) as [x|] eqn:E; [exfalso|reflexivity].
  apply B in E. simpl in E.
  rewrite app_assoc, lits_match_short in E.
  - rewrite <- app_assoc in Hocc.
    rewrite (lits_occur_suffix ci w a _ E) in Hocc. discriminate.
  - rewrite length_app. destruct b; [contradiction|simpl; lia].
Qed.

End RegExpFacts.

Import RegExpFacts.

(** ** Splitting *)

Lemma split_nonempty (sep : ascii) (s : str) : split sep s <> [].
Proof.
  destruct s as [|c s]; simpl; [discriminate|].
  destruct (Ascii.eqb c sep); [discriminate|].
  destruct (split sep s); discriminate.
Qed.

Lemma split_cons_other (sep c : ascii) (s : str) :
  Ascii.eqb c sep = false ->
  split sep (c :: s) = (c :: hd [] (split sep s)) :: tl (split sep s).
Proof.
  intros H. simpl. rewrite H.
  destruct (split sep s) eqn:E; [|reflexivity].
  now apply split_nonempty in E.
Qed.

Lemma split_app_sep (sep : ascii) (a b : str) :
  split sep (a ++ sep :: b) = split sep a ++ split sep b.
Proof.
  induction a as [|c a IH].
  - simpl. now rewrite Ascii.eqb_refl.
  - change ((c :: a) ++ sep :: b) with (c :: (a ++ sep :: b)).
    destruct (Ascii.eqb c sep) eqn:E.
    + simpl. rewrite E, IH. reflexivity.
    + rewrite !split_cons_other by exact E. rewrite IH.
      destruct (split sep a) eqn:Ea; [now apply split_nonempty in Ea|].
      reflexivity.
Qed.


(** ** The display name (prettyFromFishRef) *)







(** ** The month number of a condition text *)


Lemma isEmpty_false (s : str) : isEmpty s = false -> s <> [].
Proof. destruct s; [discriminate|discriminate]. Qed.






(** ** extractMonthIndex over the fields of a record *)

Lemma monthOfCond_nonempty (s : str) (n : number) : monthOfCond s = Some n -> isEmpty s = false.
Proof. destruct s; [discriminate|reflexivity]. Qed.

Lemma extractMonthIndex_loop_skip (r : row) (k : str) (ks : list str) :
  givesNoMonth r k = true ->
  extractMonthIndex_loop r (k :: ks) = extractMonthIndex_loop r ks.
Proof.
  unfold givesNoMonth. intros H. simpl.
  destruct (isCondKey k); simpl in *; [|reflexivity].
  destruct (monthOfCond (orEmpty (Obj.get k r))); [discriminate|].
  now destruct (isEmpty _).
Qed.

Lemma extractMonthIndex_loop_hit (r : row) (k : str) (ks : list str) (n : number) :
  isCondKey k = true ->
  monthOfCond (orEmpty (Obj.get k r)) = Some n ->
  extractMonthIndex_loop r (k :: ks) = Some n.
Proof.
  intros Hk Hn. simpl. rewrite Hk. simpl.
  rewrite (monthOfCond_nonempty _ Hn), Hn. reflexivity.
Qed.

Lemma extractMonthIndex_loop_first (r : row) (k : str) (n : number) : forall ks,
  firstHitIn r ks k = true ->
  monthOfCond (orEmpty (Obj.get k r)) = Some n ->
  extractMonthIndex_loop r ks = Some n.
Proof.
  induction ks as [|k' ks IH]; intros H Hn; [discriminate|].
  simpl in H. destruct (str_eqb k' k) eqn:E.
  - apply str_eqb_eq in E. subst k'. now apply extractMonthIndex_loop_hit.
  - apply andb_true_iff in H as [H1 H2].
    rewrite extractMonthIndex_loop_skip by exact H1. now apply IH.
Qed.

Lemma extractMonthIndex_loop_none (r : row) : forall ks,
  forallb (givesNoMonth r) ks = true -> extractMonthIndex_loop r ks = None.
Proof.
  induction ks as [|k ks IH]; intros H; [reflexivity|].
  simpl in H. apply andb_true_iff in H as [H1 H2].
  rewrite extractMonthIndex_loop_skip by exact H1. now apply IH.
Qed.

Lemma extractMonthIndex_first (r : row) (k : str) (n : number) :
  firstHit r k = true ->
  monthOfCond (orEmpty (Obj.get k r)) = Some n ->
  extractMonthIndex r = Some n.
Proof. apply extractMonthIndex_loop_first. Qed.

(** What the loop of [main] does with a record, from the number that
    [extractMonthIndex] returns. *)
Lemma fillMonths_cons (r : row) (rows : list row) (months : Obj.t entry) :
  fillMonths (r :: rows) months =
  fillMonths rows
    match extractMonthIndex r with
    | Some n => if validMonth (Some n)
                then Obj.set (String_of_number n) (entryOf r) months
                else months
    | None => months
    end.
Proof.
  simpl. destruct (extractMonthIndex r) as [[n|]|]; [|reflexivity|reflexivity].
  unfold skipped, validMonth, num_not, num_ltb.
  destruct (N.eqb_spec n 0), (N.ltb_spec n 1), (N.ltb_spec 12 n),
    (N.leb_spec 1 n), (N.leb_spec n 12); simpl; try reflexivity; lia.
Qed.





(** C2 (as amended).  [extractMonthIndex] scans the condition fields in the
    enumeration order of the record's field names.  A field without the
    marker, or with the marker but without a matching numeral, gives nothing
    and the scan goes on.  The first field whose text matches decides: its
    number is returned whether or not it lies in [1,12], no later field is
    consulted, and [main] stores the record under that number when it lies
    in [1,12] and skips the record otherwise.  When no field matches, the
    result is null. *)
Theorem C2_first_match_decides :
  (forall (r : row) (k : str) (n : number),
      firstHit r k = true ->
      monthOfCond (orEmpty (Obj.get k r)) = Some n ->
      extractMonthIndex r = Some n
      /\ forall rows months,
           fillMonths (r :: rows) months
           = fillMonths rows (if validMonth (Some n)
                              then Obj.set (String_of_number n) (entryOf r) months
                              else months))
  /\ (forall r : row,
      forallb (givesNoMonth r) (Obj.keys r) = true -> extractMonthIndex r = None).
Proof.
  split.
  - intros r k n Hk Hn.
    pose proof (extractMonthIndex_first _ _ Hk Hn) as E.
    split; [exact E|]. intros rows months. now rewrite fillMonths_cons, E.
  - intros r H. now apply extractMonthIndex_loop_none.
Qed.

Lemma C2_first_match_decides_witness :
  extractMonthIndex
    [("Cond1", "LCP_Fishing_Axolotl_MonthlyIndex [GLOB:0080F5A1] == none");
     ("Cond2", "LocRegionForestFloodlands [KYWD:007AE59D]");
     ("Cond3", "LCP_Fishing_Axolotl_MonthlyIndex [GLOB:0080F5A1] == 7.000000")]
  = Some (Finite 7)
  /\ extractMonthIndex
       [("Cond1", "LCP_Fishing_Axolotl_MonthlyIndex [GLOB:0080F5A1] == none")]
     = None.
Proof.
  split.
  - apply (proj1 C2_first_match_decides _ "Cond3" (Finite 7)); reflexivity.
  - apply (proj2 C2_first_match_decides). reflexivity.
Defined.

(** C2 as the specification states it fails on a record whose first
    condition field holds 13 and whose second holds 7: the scan ends at 13,
    and the record, to which the specification gives the month 7, enters no
    month. *)
Lemma C2_counterexample :
  let r : row :=
    [("LVLI_EDID", "Fishing_LLS_FishCollection_Axolotls");
     ("Cond1", "LCP_Fishing_Axolotl_MonthlyIndex [GLOB:0080F5A1] == 13.000000");
     ("Cond2", "LCP_Fishing_Axolotl_MonthlyIndex [GLOB:0080F5A1] == 7.000000")] in
  extractMonthIndex r = Some (Finite 13)
  /\ extractMonthIndex r <> Some (Finite 7)
  /\ fillMonths [r] [] = [].
Proof. repeat split; try reflexivity. discriminate. Qed.

(** ** extractRegions *)

Lemma set_has_in (x : str) (s : list str) : set_has x s = true <-> In x s.
Proof.
  unfold set_has. rewrite existsb_exists. split.
  - intros (y & Hy & E). apply str_eqb_eq in E. now subst.
  - intros H. exists x. split; [exact H|apply str_eqb_refl].
Qed.

Lemma set_add_in (x y : str) (s : list str) : In y (set_add x s) <-> In y s \/ y = x.
Proof.
  unfold set_add. destruct (set_has x s) eqn:E.
  - apply set_has_in in E. split; [now left|]. intros [H| ->]; assumption.
  - rewrite in_app_iff. simpl. intuition congruence.
Qed.

Lemma set_add_NoDup (x : str) (s : list str) : NoDup s -> NoDup (set_add x s).
Proof.
  intros H. unfold set_add. destruct (set_has x s) eqn:E; [exact H|].
  assert (N : ~ In x s).
  { intros I. apply set_has_in in I. congruence. }
  clear E. induction H as [|y s Hy Hs IH]; simpl.
  - constructor; [intros []|constructor].
  - constructor.
    + rewrite in_app_iff. simpl. intros [I|[I|[]]]; [contradiction|].
      subst. apply N. now left.
    + apply IH. intros I. apply N. now right.
Qed.

Lemma extractRegions_loop_cons (r : row) (k : str) (ks : list str) (regions : list str) :
  extractRegions_loop r (k :: ks) regions =
  extractRegions_loop r ks
    match tagOfField r k with
    | Some pretty => set_add pretty regions
    | None => regions
    end.
Proof.
  unfold tagOfField. simpl. destruct (isCondKey k); simpl; [|reflexivity].
  destruct (orEmpty (Obj.get k r)) as [|c s] eqn:E; [reflexivity|].
  simpl isEmpty. cbv iota.
  destruct (regionOfCond (c :: s)) as [pretty|]; [|reflexivity].
  now destruct (isEmpty pretty).
Qed.

Lemma extractRegions_loop_NoDup (r : row) : forall ks regions,
  NoDup regions -> NoDup (extractRegions_loop r ks regions).
Proof.
  induction ks as [|k ks IH]; intros regions H; [exact H|].
  rewrite extractRegions_loop_cons. apply IH.
  destruct (tagOfField r k); [now apply set_add_NoDup|exact H].
Qed.

Lemma extractRegions_loop_in (r : row) (t : str) : forall ks regions,
  In t (extractRegions_loop r ks regions)
  <-> In t regions \/ exists k, In k ks /\ tagOfField r k = Some t.
Proof.
  induction ks as [|k ks IH]; intros regions.
  - simpl. split; [now left|]. intros [H|(k & [] & _)]. exact H.
  - rewrite extractRegions_loop_cons, IH. split.
    + intros [H|(k' & H1 & H2)].
      * destruct (tagOfField r k) as [pretty|] eqn:E; [|now left].
        apply set_add_in in H as [H| ->]; [now left|].
        right. exists k. split; [now left|exact E].
      * right. exists k'. split; [now right|exact H2].
    + intros [H|(k' & [<-|H1] & H2)].
      * left. destruct (tagOfField r k); [|exact H].
        apply set_add_in. now left.
      * left. rewrite H2. apply set_add_in. now right.
      * right. now exists k'.
Qed.

(** ** The region token of a condition text *)

Lemma cls_ident (c : ascii) : cls_match false cc_ident c = is_word c.
Proof. destruct c as [[] [] [] [] [] [] [] []]; reflexivity. Qed.

Lemma run_cat_group_lits_plus (A : Type) (ci : bool) (w v l : str) cc r p cs
    (k : mstate -> option A) x :
  v <> [] ->
  forallb (cls_match ci cc) v = true ->
  stops ci cc l = true ->
  run ci r (MState (prev_after p (w ++ v)) l (cs ++ [w ++ v])) k = Some x ->
  run ci (Cat (Group (Cat (lits w) (Plus true cc))) r) (MState p (w ++ v ++ l) cs) k
  = Some x.
Proof.
  intros Hne Hv Hl Hk.
  change (run ci (Cat (Group (Cat (lits w) (Plus true cc))) r) (MState p (w ++ v ++ l) cs) k)
    with (run ci (Cat (lits w) (Cat (Plus true cc) Empty)) (MState p (w ++ v ++ l) cs)
            (fun st' =>
               run ci r (MState (prev st') (rest st')
                 (caps st' ++ [firstn (length (w ++ v ++ l) - length (rest st'))
                                 (w ++ v ++ l)])) k)).
  rewrite run_cat_lits.
  apply run_cat_plus_greedy; try assumption.
  simpl. rewrite app_assoc, firstn_consumed, <- prev_after_app. exact Hk.
Qed.

Lemma re_region_begins : begins_with false re_region "LocRegion".
Proof.
  intros st x H. unfold re_region in H.
  change (cats [WordB; Group (Cat (lits "LocRegion") (Plus true cc_ident));
                Plus true cc_space; lits "[KYWD:"])
    with (Cat WordB (Cat (Group (Cat (lits "LocRegion") (Plus true cc_ident)))
            (Cat (Plus true cc_space) (Cat (lits "[KYWD:") Empty)))) in H.
  change (run false (Cat WordB ?r) st ?k)
    with (if xorb (word_at (prev st)) (word_at (hd_error (rest st)))
          then run false r st k else None) in H.
  destruct (xorb _ _); [|discriminate].
  change (run false (Cat (Group (Cat ?a ?b)) ?r) st ?k)
    with (run false (Cat a b) st
            (fun st' => run false r
               (MState (prev st') (rest st')
                  (caps st' ++ [firstn (length (rest st) - length (rest st')) (rest st)])) k))
    in H.
  now apply run_cat_lits_inv in H.
Qed.

Lemma re_region_run (ident ws post : str) (p : option ascii) :
  regionCondOk [] ident ws = true ->
  word_at p = false ->
  run false re_region (MState p ("LocRegion" ++ ident ++ ws ++ "[KYWD:" ++ post) [])
    (fun st => Some st)
  = Some (MState (Some ":"%char) post ["LocRegion" ++ ident]).
Proof.
  unfold regionCondOk. rewrite !andb_true_iff, !negb_true_iff.
  intros [[[[[_ _] Hi0] Hi] Hw0] Hw] Hp.
  unfold re_region.
  change (cats [WordB; Group (Cat (lits "LocRegion") (Plus true cc_ident));
                Plus true cc_space; lits "[KYWD:"])
    with (Cat WordB (Cat (Group (Cat (lits "LocRegion") (Plus true cc_ident)))
            (Cat (Plus true cc_space) (Cat (lits "[KYWD:") Empty)))).
  change (run false (Cat WordB ?r) ?st ?k)
    with (if xorb (word_at (prev st)) (word_at (hd_error (rest st)))
          then run false r st k else None).
  simpl prev. rewrite Hp. simpl xorb. cbv iota.
  apply run_cat_group_lits_plus.
  - now apply isEmpty_false.
  - now rewrite (forallb_eq _ _ _ cls_ident).
  - pose proof (isEmpty_false Hw0) as Hne.
    destruct ws as [|c ws]; [contradiction|].
    simpl in Hw. apply andb_true_iff in Hw as [Hc _].
    simpl. rewrite cls_ident.
    destruct c as [[] [] [] [] [] [] [] []]; try discriminate Hc; reflexivity.
  - apply run_cat_plus_greedy;
      [now apply isEmpty_false
      |now rewrite (forallb_eq _ _ _ cls_space_cs)
      |reflexivity|].
    rewrite run_cat_lits. reflexivity.
Qed.

(** A condition text of that shape gives the tag of its first token,
    whatever follows. *)
Lemma regionOfCond_shape (pre ident ws post : str) :
  regionCondOk pre ident ws = true ->
  regionOfCond (regionCond pre ident ws post)
  = Some (prettyFromLocRegion ("LocRegion" ++ ident)).
Proof.
  intros Hok. unfold regionOfCond, regionCond, exec.
  assert (Hocc : lits_occur false "LocRegion" (pre ++ "LocRegio") = false).
  { unfold regionCondOk in Hok. rewrite !andb_true_iff, !negb_true_iff in Hok. tauto. }
  assert (Hp : word_at (prev_after None pre) = false).
  { unfold regionCondOk in Hok. rewrite !andb_true_iff, !negb_true_iff in Hok. tauto. }
  assert (Hok' : regionCondOk [] ident ws = true).
  { unfold regionCondOk in *. rewrite !andb_true_iff in *. repeat split; try tauto. }
  change (pre ++ "LocRegion" ++ ident ++ ws ++ "[KYWD:" ++ post)
    with (pre ++ "LocRegio" ++ "n" ++ ident ++ ws ++ "[KYWD:" ++ post).
  rewrite (@search_skip_lits false re_region "LocRegion" _ "LocRegio" _ _ _
             re_region_begins); [|simpl; lia|exact Hocc].
  change ("LocRegio" ++ "n" ++ ident ++ ws ++ "[KYWD:" ++ post)
    with ("LocRegion" ++ ident ++ ws ++ "[KYWD:" ++ post).
  rewrite (@search_here false re_region _ _ _ _ (@re_region_run ident ws post _ Hok' Hp)).
  reflexivity.
Qed.

(** ** prettyFromLocRegion on a token *)

Lemma last_nonempty (c : ascii) (l : str) (d d' : ascii) :
  last (c :: l) d = last (c :: l) d'.
Proof.
  revert c. induction l as [|b l IH]; intros c; [reflexivity|].
  change (last (c :: b :: l) d) with (last (b :: l) d).
  change (last (c :: b :: l) d') with (last (b :: l) d'). apply IH.
Qed.

Lemma last_cons (c : ascii) (l : str) (d : ascii) : last (c :: l) d = last l c.
Proof.
  destruct l as [|b l]; [reflexivity|].
  change (last (c :: b :: l) d) with (last (b :: l) d). apply last_nonempty.
Qed.

Lemma trimStart_id (c : ascii) (s : str) : is_space c = false -> trimStart (c :: s) = c :: s.
Proof. intros H. simpl. now rewrite H. Qed.

(** [trim] leaves a text that neither starts nor ends with white space. *)
Lemma trim_id (c : ascii) (s : str) :
  is_space c = false -> is_space (last s c) = false -> trim (c :: s) = c :: s.
Proof.
  intros H1 H2. unfold trim, trimEnd. rewrite trimStart_id by exact H1.
  destruct (rev (c :: s)) as [|b t] eqn:E.
  - apply (f_equal (@length ascii)) in E. rewrite length_rev in E. discriminate.
  - assert (Hb : b = last s c).
    { rewrite <- (last_cons c s c).
      rewrite <- (rev_involutive (c :: s)), E. simpl. now rewrite last_last. }
    rewrite trimStart_id by (now rewrite Hb).
    rewrite <- E. apply rev_involutive.
Qed.

Lemma camelSpace_eq (c1 c2 : ascii) (t : str) :
  camelSpace (c1 :: c2 :: t) =
  if is_lower c1 && is_upper c2 then c1 :: " "%char :: c2 :: camelSpace t
  else c1 :: camelSpace (c2 :: t).
Proof. reflexivity. Qed.

Lemma camelSpace_last : forall (n : nat) (s : str) (d : ascii),
  length s <= n -> last (camelSpace s) d = last s d.
Proof.
  induction n as [|n IH]; intros s d Hn.
  - destruct s; [reflexivity|simpl in Hn; lia].
  - destruct s as [|c1 [|c2 t]]; try reflexivity.
    simpl in Hn. rewrite camelSpace_eq.
    destruct (is_lower c1 && is_upper c2).
    + rewrite !last_cons. apply IH. lia.
    + rewrite (last_cons c1), (last_cons c1). apply IH. simpl. lia.
Qed.

Lemma is_word_not_space (c : ascii) : is_word c = true -> is_space c = false.
Proof. destruct c as [[] [] [] [] [] [] [] []]; vm_compute; congruence. Qed.

Lemma last_forallb (f : ascii -> bool) (s : str) (d : ascii) :
  forallb f s = true -> f d = true -> f (last s d) = true.
Proof.
  revert d. induction s as [|c s IH]; intros d Hs Hd; [exact Hd|].
  simpl in Hs. apply andb_true_iff in Hs as [Hc Hs].
  rewrite last_cons. now apply IH.
Qed.

Lemma camelSpace_head (c : ascii) (s : str) :
  exists t, camelSpace (c :: s) = c :: t /\ last t c = last s c.
Proof.
  pose proof (@camelSpace_last (S (length s)) (c :: s) c (le_n _)) as H.
  destruct s as [|c2 s]; [now exists []|].
  rewrite camelSpace_eq in *. destruct (is_lower c && is_upper c2).
  - eexists; split; [reflexivity|]. rewrite last_cons in H. exact H.
  - eexists; split; [reflexivity|]. rewrite last_cons in H. exact H.
Qed.

(** The tag of a token: the identifier after LocRegion, with a space
    wherever an upper-case letter follows a lower-case one. *)
Lemma prettyFromLocRegion_token (ident : str) :
  forallb is_word ident = true ->
  prettyFromLocRegion ("LocRegion" ++ ident) = camelSpace ident.
Proof.
  intros Hw. unfold prettyFromLocRegion.
  assert (T : trim ("LocRegion" ++ ident) = "LocRegion" ++ ident).
  { apply (@trim_id "L" ("ocRegion" ++ ident)); [reflexivity|].
    apply is_word_not_space.
    apply last_forallb; [|reflexivity].
    rewrite forallb_app, Hw. reflexivity. }
  rewrite T.
  assert (R : replace true re_LocRegion_prefix [] ("LocRegion" ++ ident) = ident).
  { unfold replace, exec.
    assert (E : run true re_LocRegion_prefix (MState None ("LocRegion" ++ ident) [])
                  (fun st => Some st)
                = Some (MState (Some "n"%char) ident [])).
    { unfold re_LocRegion_prefix.
      change (run true (Cat Bos ?r) (MState None ?l ?cs) ?k)
        with (run true r (MState None l cs) k).
      now rewrite run_lits. }
    rewrite (@search_here true re_LocRegion_prefix 0 _ _ _ E).
    cbv beta iota delta [index matched rest caps].
    rewrite firstn_consumed. reflexivity. }
  rewrite R.
  destruct ident as [|c s]; [reflexivity|].
  destruct (camelSpace_head c s) as (t & -> & Ht).
  simpl in Hw. apply andb_true_iff in Hw as [Hc Hs].
  apply trim_id.
  - now apply is_word_not_space.
  - rewrite Ht. apply is_word_not_space. now apply last_forallb.
Qed.

(** A condition text with a region token gives the tag of its first
    token. *)
Lemma regionOfCond_token (pre ident ws post : str) :
  regionCondOk pre ident ws = true ->
  regionOfCond (regionCond pre ident ws post) = Some (camelSpace ident).
Proof.
  intros Hok. rewrite regionOfCond_shape by exact Hok.
  rewrite prettyFromLocRegion_token; [reflexivity|].
  unfold regionCondOk in Hok. rewrite !andb_true_iff in Hok. tauto.
Qed.

Lemma tagOfField_token (r : row) (k pre ident ws post : str) :
  isCondKey k = true ->
  regionCondOk pre ident ws = true ->
  Obj.get k r = Some (regionCond pre ident ws post) ->
  tagOfField r k = Some (camelSpace ident).
Proof.
  intros Hk Hok Hget. unfold tagOfField. rewrite Hk, Hget. simpl orEmpty.
  rewrite regionOfCond_token by exact Hok.
  unfold regionCondOk in Hok. rewrite !andb_true_iff, !negb_true_iff in Hok.
  destruct ident as [|c ident]; [simpl in Hok; intuition discriminate|].
  destruct (camelSpace_head c ident) as (t & -> & _). reflexivity.
Qed.

(** ** Plain objects *)

Module ObjFacts.
Import Obj.

Section Facts.
Variable V : Type.
Implicit Types (o : Obj.t V) (k : str) (v : V).

Lemma in_insert_index k k' ks : In k (insert_index k' ks) <-> k = k' \/ In k ks.
Proof.
  induction ks as [|x ks IH]; simpl.
  - intuition congruence.
  - destruct (index_value k' <=? index_value x)%N; simpl; [intuition congruence|].
    rewrite IH. intuition congruence.
Qed.

Lemma in_sort_indices k ks : In k (sort_indices ks) <-> In k ks.
Proof.
  induction ks as [|x ks IH]; simpl; [reflexivity|].
  rewrite in_insert_index, IH. intuition congruence.
Qed.

(** [Object.keys] lists the names of the own properties, all of them. *)
Lemma keys_names o k : In k (keys o) <-> In k (names o).
Proof.
  unfold keys. rewrite in_app_iff, in_sort_indices, !filter_In.
  destruct (is_index k); simpl; intuition congruence.
Qed.

Lemma get_names o k v : get k o = Some v -> In k (names o).
Proof.
  induction o as [|[k' v'] o IH]; simpl; [discriminate|].
  destruct (str_eqb k k') eqn:E.
  - apply str_eqb_eq in E. now left.
  - intros H. right. now apply IH.
Qed.

Lemma names_get o k : In k (names o) -> exists v, get k o = Some v.
Proof.
  induction o as [|[k' v'] o IH]; simpl; [intros []|].
  destruct (str_eqb k k') eqn:E; [now exists v'|].
  intros [H|H]; [|now apply IH].
  subst. now rewrite str_eqb_refl in E.
Qed.

Lemma has_names o k : has k o = true <-> In k (names o).
Proof.
  unfold has. split.
  - destruct (get k o) eqn:E; [|discriminate]. intros _. eapply get_names, E.
  - intros H. apply names_get in H as [v ->]. reflexivity.
Qed.

Lemma names_update o k v : names (update k v o) = names o.
Proof.
  induction o as [|[k' v'] o IH]; simpl; [reflexivity|].
  destruct (str_eqb k k'); simpl; [reflexivity|]. f_equal. exact IH.
Qed.

Lemma get_update_same o k v : has k o = true -> get k (update k v o) = Some v.
Proof.
  unfold has. induction o as [|[k' v'] o IH]; simpl; [discriminate|].
  destruct (str_eqb k k') eqn:E; simpl; rewrite E; [reflexivity|exact IH].
Qed.

Lemma get_update_other o k k' v : k' <> k -> get k' (update k v o) = get k' o.
Proof.
  intros N. induction o as [|[x v'] o IH]; simpl; [reflexivity|].
  destruct (str_eqb k x) eqn:E; simpl.
  - apply str_eqb_eq in E. subst x.
    destruct (str_eqb k' k) eqn:E'; [|reflexivity].
    apply str_eqb_eq in E'. contradiction.
  - now rewrite IH.
Qed.

Lemma get_app o o' k :
  get k (o ++ o') = match get k o with Some v => Some v | None => get k o' end.
Proof.
  induction o as [|[x v'] o IH]; simpl; [reflexivity|].
  now destruct (str_eqb k x).
Qed.

(** Reading back what an assignment wrote. *)
Lemma get_set_same o k v : k <> "__proto__" -> get k (set k v o) = Some v.
Proof.
  intros N. unfold set. apply str_eqb_neq in N. rewrite N.
  destruct (has k o) eqn:E; [now apply get_update_same|].
  rewrite get_app. unfold has in E. destruct (get k o); [discriminate|].
  simpl. now rewrite str_eqb_refl.
Qed.

Lemma get_set_other o k k' v : k' <> k -> get k' (set k v o) = get k' o.
Proof.
  intros N. unfold set. destruct (str_eqb k "__proto__"); [reflexivity|].
  destruct (has k o); [now apply get_update_other|].
  rewrite get_app. destruct (get k' o); [reflexivity|].
  simpl. apply str_eqb_neq in N. now rewrite N.
Qed.

(** The names after an assignment. *)
Lemma names_set o k k' v :
  In k' (names (set k v o)) <-> In k' (names o) \/ (k' = k /\ k <> "__proto__").
Proof.
  unfold set. destruct (str_eqb k "__proto__") eqn:P.
  - apply str_eqb_eq in P. intuition congruence.
  - apply str_eqb_neq in P. destruct (has k o) eqn:E.
    + rewrite names_update. apply has_names in E. intuition congruence.
    + unfold names. rewrite map_app, in_app_iff. simpl. intuition congruence.
Qed.
End Facts.

End ObjFacts.

Import ObjFacts.

(** ** One tag for each condition field *)

(** C3 (as amended).  A condition field adds at most one tag to the
    record's tag set, the one of the first region token of its text.  The
    tag set holds exactly the tags of the single fields.  A text with a
    region token (the first LocRegion of the text, not after a word
    character, followed by white space and the [KYWD: bracket) gives the
    token's identifier with camel-case spaces, whatever follows the
    bracket, a second region token included; and that tag is in the tag set
    of every record with such a condition field. *)
Theorem C3_first_token_per_field :
  (forall (r : row) (t : str),
      In t (extractRegions r)
      <-> exists k, In k (Obj.keys r) /\ tagOfField r k = Some t)
  /\ (forall pre ident ws post : str,
        regionCondOk pre ident ws = true ->
        regionOfCond (regionCond pre ident ws post) = Some (camelSpace ident))
  /\ (forall (r : row) (k pre ident ws post : str),
        isCondKey k = true ->
        regionCondOk pre ident ws = true ->
        Obj.get k r = Some (regionCond pre ident ws post) ->
        tagOfField r k = Some (camelSpace ident)
        /\ In (camelSpace ident) (extractRegions r)).
Proof.
  assert (M : forall (r : row) (t : str),
             In t (extractRegions r)
             <-> exists k, In k (Obj.keys r) /\ tagOfField r k = Some t).
  { intros r t. unfold extractRegions. rewrite extractRegions_loop_in.
    split; [intros [[]|H]; exact H|intros H; now right]. }
  split; [exact M|split].
  - intros pre ident ws post Hok. now apply regionOfCond_token.
  - intros r k pre ident ws post Hk Hok Hget.
    pose proof (tagOfField_token r k pre ident ws post Hk Hok Hget) as T.
    split; [exact T|]. apply M. exists k. split; [|exact T].
    apply keys_names. eapply get_names, Hget.
Qed.

Lemma C3_first_token_per_field_witness :
  regionOfCond
    "Subject LocRegionForestFloodlands [KYWD:007AE59D] OR LocRegionBurningSprings [KYWD:007AE59E]"
  = Some "Forest Floodlands"
  /\ In "Forest Floodlands"
       (extractRegions
          [("Cond1",
            "Subject LocRegionForestFloodlands [KYWD:007AE59D] OR LocRegionBurningSprings [KYWD:007AE59E]")]).
Proof.
  split.
  - apply (proj1 (proj2 C3_first_token_per_field) "Subject " "ForestFloodlands" " "
             "007AE59D] OR LocRegionBurningSprings [KYWD:007AE59E]").
    reflexivity.
  - apply (proj2 (proj2 C3_first_token_per_field) _ "Cond1" "Subject "
             "ForestFloodlands" " "
             "007AE59D] OR LocRegionBurningSprings [KYWD:007AE59E]");
      reflexivity.
Defined.

(** C3 as the specification states it fails on a condition field with two
    region tokens: the tag of the second one is not collected. *)
Lemma C3_counterexample :
  let r : row :=
    [("Cond1",
      "LocRegionForestFloodlands [KYWD:007AE59D] OR LocRegionBurningSprings [KYWD:007AE59E]")] in
  extractRegions r = ["Forest Floodlands"]
  /\ ~ In "Burning Springs" (extractRegions r).
Proof.
  split; [reflexivity|].
  intros [H|[]]. discriminate H.
Qed.

(** ** No tag twice *)

Lemma count_once (r : row) (k t : str) :
  In k (Obj.keys r) -> tagOfField r k = Some t ->
  count_occ (list_eq_dec ascii_dec) (extractRegions r) t = 1.
Proof.
  intros Hk Ht.
  assert (D : NoDup (extractRegions r))
    by (apply extractRegions_loop_NoDup; constructor).
  assert (I : In t (extractRegions r)).
  { apply extractRegions_loop_in. right. now exists k. }
  rewrite (NoDup_count_occ (list_eq_dec ascii_dec)) in D.
  specialize (D t).
  apply (count_occ_In (list_eq_dec ascii_dec)) in I. lia.
Qed.

(** C7 (as amended).  The tags of a record are pairwise distinct, whatever
    the record: a tag that two condition fields give occurs once in the tag
    set.  So when the texts of two condition fields have the same region
    token LocRegion<identifier> as their first token, the tag of that
    identifier occurs exactly once; two condition fields with the token
    LocRegionForestFloodlands as their first token give the one tag Forest
    Floodlands. *)
Theorem C7_tag_deduplication :
  (forall r : row, NoDup (extractRegions r))
  /\ (forall (r : row) (k1 k2 t : str),
        In k1 (Obj.keys r) -> In k2 (Obj.keys r) ->
        tagOfField r k1 = Some t -> tagOfField r k2 = Some t ->
        count_occ (list_eq_dec ascii_dec) (extractRegions r) t = 1)
  /\ (forall (r : row) (k1 k2 ident pre1 ws1 post1 pre2 ws2 post2 : str),
        isCondKey k1 = true -> isCondKey k2 = true -> k1 <> k2 ->
        regionCondOk pre1 ident ws1 = true ->
        regionCondOk pre2 ident ws2 = true ->
        Obj.get k1 r = Some (regionCond pre1 ident ws1 post1) ->
        Obj.get k2 r = Some (regionCond pre2 ident ws2 post2) ->
        count_occ (list_eq_dec ascii_dec) (extractRegions r) (camelSpace ident) = 1)
  /\ extractRegions
       [("Cond1", "LocRegionForestFloodlands [KYWD:007AE59D]");
        ("Cond2", "LocRegionForestFloodlands [KYWD:007AE59D]")]
     = ["Forest Floodlands"].
Proof.
  split; [|split; [|split]].
  - intros r. apply extractRegions_loop_NoDup. constructor.
  - intros r k1 k2 t H1 _ T1 _. now apply (count_once r k1).
  - intros r k1 k2 ident pre1 ws1 post1 pre2 ws2 post2 C1 _ _ Ok1 _ G1 _.
    apply (count_once r k1).
    + apply keys_names. eapply get_names, G1.
    + now apply (tagOfField_token r k1 pre1 ident ws1 post1).
  - reflexivity.
Qed.

Lemma C7_tag_deduplication_witness :
  count_occ (list_eq_dec ascii_dec)
    (extractRegions
       [("Cond1", "LocRegionForestFloodlands [KYWD:007AE59D]");
        ("Cond2", "x LocRegionForestFloodlands  [KYWD:007AE59D] y")])
    "Forest Floodlands" = 1
  /\ count_occ (list_eq_dec ascii_dec)
       (extractRegions
          [("LVLI_EDID", "Fishing_LLS_FishCollection_Axolotls");
           ("Cond1", "LocRegionForestFloodlands [KYWD:007AE59D]");
           ("Cond2", "x LocRegionForestFloodlands  [KYWD:007AE59D] y")])
       (camelSpace "ForestFloodlands") = 1.
Proof.
  split.
  - apply (proj1 (proj2 C7_tag_deduplication) _ "Cond1" "Cond2");
      vm_compute; auto.
  - apply (proj1 (proj2 (proj2 C7_tag_deduplication)) _ "Cond1" "Cond2"
             "ForestFloodlands" "" " " "007AE59D]" "x " "  " "007AE59D] y");
      try reflexivity.
    discriminate.
Defined.

(** C7 as the specification states it fails on a record whose two
    condition fields both contain the token LocRegionForestFloodlands after
    another region token: each field gives the tag of its first token only,
    and the tag Forest Floodlands is not in the tag set at all. *)
Lemma C7_counterexample :
  let r : row :=
    [("Cond1",
      "LocRegionAshHeap [KYWD:007AE59A] OR LocRegionForestFloodlands [KYWD:007AE59D]");
     ("Cond2",
      "LocRegionMire [KYWD:007AE59B] OR LocRegionForestFloodlands [KYWD:007AE59D]")] in
  includes "LocRegionForestFloodlands [KYWD:" (orEmpty (Obj.get "Cond1" r)) = true
  /\ includes "LocRegionForestFloodlands [KYWD:" (orEmpty (Obj.get "Cond2" r)) = true
  /\ extractRegions r = ["Ash Heap"; "Mire"]
  /\ count_occ (list_eq_dec ascii_dec) (extractRegions r) "Forest Floodlands" = 0.
Proof. repeat split; vm_compute; reflexivity. Qed.

(** ** The rotation table (main) *)

Lemma skipped_validMonth (idx : option number) : skipped idx = negb (validMonth idx).
Proof.
  destruct idx as [[n|]|]; [|reflexivity|reflexivity]. simpl.
  destruct (N.eqb_spec n 0), (N.ltb_spec n 1), (N.ltb_spec 12 n),
    (N.leb_spec 1 n), (N.leb_spec n 12); simpl; try reflexivity; lia.
Qed.

Lemma month_cases (n : N) :
  (1 <=? n)%N && (n <=? 12)%N = true ->
  In n [1; 2; 3; 4; 5; 6; 7; 8; 9; 10; 11; 12]%N.
Proof.
  intros H. apply andb_true_iff in H as [H1 H2].
  apply N.leb_le in H1. apply N.leb_le in H2.
  assert (E : exists m, (m < 13)%nat /\ n = N.of_nat m).
  { exists (N.to_nat n). split; [lia|now rewrite N2Nat.id]. }
  destruct E as (m & Hm & ->).
  do 13 (destruct m as [|m]; [simpl; try lia; tauto|]). lia.
Qed.

Lemma String_of_month_inj (n m : N) :
  (1 <=? n)%N && (n <=? 12)%N = true ->
  (1 <=? m)%N && (m <=? 12)%N = true ->
  String_of n = String_of m -> n = m.
Proof.
  intros Hn Hm. apply month_cases in Hn. apply month_cases in Hm.
  simpl in Hn, Hm.
  repeat (destruct Hn as [<-|Hn]; [
    repeat (destruct Hm as [<-|Hm]; [vm_compute; congruence|]); contradiction|]).
  contradiction.
Qed.

Lemma String_of_month_proto (n : N) :
  (1 <=? n)%N && (n <=? 12)%N = true -> String_of n <> "__proto__".
Proof.
  intros Hn. apply month_cases in Hn. simpl in Hn.
  repeat (destruct Hn as [<-|Hn]; [vm_compute; congruence|]). contradiction.
Qed.

Lemma fillMonths_app (a b : list row) : forall months,
  fillMonths (a ++ b) months = fillMonths b (fillMonths a months).
Proof.
  induction a as [|r a IH]; intros months; [reflexivity|].
  change ((r :: a) ++ b) with (r :: (a ++ b)).
  now rewrite !fillMonths_cons, IH.
Qed.

Lemma fillMonths_skip (r : row) (rows : list row) (months : Obj.t entry) :
  validMonth (extractMonthIndex r) = false ->
  fillMonths (r :: rows) months = fillMonths rows months.
Proof.
  intros H. rewrite fillMonths_cons.
  destruct (extractMonthIndex r) as [n|]; [|reflexivity].
  now rewrite H.
Qed.

Lemma fillMonths_names (k : str) : forall rows months,
  In k (Obj.names (fillMonths rows months)) ->
  In k (Obj.names months)
  \/ exists n, (1 <=? n)%N && (n <=? 12)%N = true /\ k = String_of n.
Proof.
  induction rows as [|r rows IH]; intros months H; [now left|].
  rewrite fillMonths_cons in H. apply IH in H as [H|H]; [|now right].
  destruct (extractMonthIndex r) as [[n|]|]; [|now left|now left].
  simpl in H.
  destruct ((1 <=? n)%N && (n <=? 12)%N) eqn:E; [|now left].
  apply names_set in H as [H|[-> _]]; [now left|].
  right. now exists n.
Qed.

Lemma fillMonths_get_other (n : N) : forall rows months,
  (1 <=? n)%N && (n <=? 12)%N = true ->
  forallb (fun r => negb (yields n r)) rows = true ->
  Obj.get (String_of n) (fillMonths rows months) = Obj.get (String_of n) months.
Proof.
  induction rows as [|r rows IH]; intros months Hn H; [reflexivity|].
  simpl in H. apply andb_true_iff in H as [H1 H2].
  rewrite fillMonths_cons, IH by assumption.
  unfold yields in H1.
  destruct (extractMonthIndex r) as [[m|]|]; [|reflexivity|reflexivity].
  simpl.
  destruct ((1 <=? m)%N && (m <=? 12)%N) eqn:E; [|reflexivity].
  apply get_set_other. intros S.
  apply String_of_month_inj in S; [|assumption|assumption].
  subst m. now rewrite N.eqb_refl in H1.
Qed.

Lemma rotations_ok (now : str) (rows : list row) (out : output) :
  rotations now rows = Ok out ->
  months (written out) = fillMonths (filter isAxoRow rows) [].
Proof.
  unfold rotations. destruct (filter isAxoRow rows); [discriminate|].
  intros H. inversion H. reflexivity.
Qed.

Lemma main_ok (repoRoot : fsnode) (now : str) (out : output) :
  main repoRoot now = Ok out ->
  exists entriesPath,
    pickLatestLvliEntriesTsv repoRoot = Ok entriesPath
    /\ rotations now (parseTSV (readTextLatin1 repoRoot entriesPath)) = Ok out.
Proof.
  unfold main. destruct (pickLatestLvliEntriesTsv repoRoot) as [p|e]; [|discriminate].
  intros H. now exists p.
Qed.

Lemma filter_app_cons (T : Type) (f : T -> bool) (a b : list T) (x : T) :
  f x = true -> filter f (a ++ x :: b) = filter f a ++ x :: filter f b.
Proof. intros H. rewrite filter_app. simpl. now rewrite H. Qed.

(** C4.  Every key of the table that a run writes is the decimal form of a
    month from 1 to 12, and a record that gives no number in [1,12] adds
    nothing: the table is the one built from the other records. *)
Theorem C4_table_keys_are_months :
  (forall (repoRoot : fsnode) (now : str) (out : output) (k : str),
      main repoRoot now = Ok out ->
      In k (Obj.keys (months (written out))) ->
      (exists n, (1 <= n <= 12)%N /\ k = String_of n)
      /\ In k ["1"; "2"; "3"; "4"; "5"; "6"; "7"; "8"; "9"; "10"; "11"; "12"])
  /\ (forall (now : str) (a b : list row) (r : row) (out : output),
        validMonth (extractMonthIndex r) = false ->
        rotations now (a ++ r :: b) = Ok out ->
        months (written out) = fillMonths (filter isAxoRow (a ++ b)) []).
Proof.
  split.
  - intros repoRoot now out k Hmain Hk.
    apply main_ok in Hmain as (p & _ & Hrot).
    apply rotations_ok in Hrot. rewrite Hrot in Hk.
    apply keys_names, fillMonths_names in Hk as [[]|(n & Hn & ->)].
    split.
    + exists n. split; [|reflexivity].
      apply andb_true_iff in Hn as [H1 H2].
      apply N.leb_le in H1. apply N.leb_le in H2. lia.
    + apply month_cases in Hn. simpl in Hn.
      repeat (destruct Hn as [<-|Hn]; [vm_compute; tauto|]). contradiction.
  - intros now a b r out Hr Hrot.
    apply rotations_ok in Hrot. rewrite Hrot.
    rewrite !filter_app. simpl.
    destruct (isAxoRow r); [|reflexivity].
    rewrite !fillMonths_app. now rewrite fillMonths_skip.
Qed.

Lemma C4_table_keys_are_months_witness :
  ((exists n, (1 <= n <= 12)%N /\ "7" = String_of n)
   /\ In "7" ["1"; "2"; "3"; "4"; "5"; "6"; "7"; "8"; "9"; "10"; "11"; "12"])
  /\ months (written
       (Output (Payload 1 "now" "America/New_York" "12:00:00"
                  (fillMonths (filter isAxoRow Sample.rows) [])) (Some 1)))
     = fillMonths (filter isAxoRow (firstn 1 Sample.rows ++ skipn 2 Sample.rows)) [].
Proof.
  split.
  - eapply (proj1 C4_table_keys_are_months Sample.repoRoot "now" _ "7").
    + vm_compute. reflexivity.
    + vm_compute. auto.
  - apply (proj2 C4_table_keys_are_months "now" (firstn 1 Sample.rows)
             (skipn 2 Sample.rows) (nth 1 Sample.rows [])).
    + vm_compute. reflexivity.
    + vm_compute. reflexivity.
Defined.

(** C5.  Last write wins: when two records of the target list yield the
    same month and no record after the second one does, the entry of the
    table at that month is the one built from the second record. *)
Theorem C5_last_write_wins :
  forall (now : str) (a b c : list row) (r1 r2 : row) (n : N),
    isAxoRow r1 = true -> isAxoRow r2 = true ->
    validMonth (Some (Finite n)) = true ->
    yields n r1 = true -> yields n r2 = true ->
    forallb (fun r => negb (isAxoRow r && yields n r)) c = true ->
    exists out,
      rotations now (a ++ r1 :: b ++ r2 :: c) = Ok out
      /\ Obj.get (String_of n) (months (written out)) = Some (entryOf r2).
Proof.
  intros now a b c r1 r2 n A1 A2 Hn Y1 Y2 Hc.
  destruct (rotations now (a ++ r1 :: b ++ r2 :: c)) as [out|e] eqn:R.
  2:{ exfalso. unfold rotations in R.
      rewrite filter_app_cons in R by exact A1.
      now destruct (filter isAxoRow a). }
  exists out. split; [reflexivity|]. rewrite (rotations_ok _ _ R).
  - rewrite app_comm_cons, app_assoc, filter_app_cons by exact A2.
    rewrite fillMonths_app, fillMonths_cons.
    unfold yields in Y2.
    destruct (extractMonthIndex r2) as [[m|]|] eqn:E2; [|discriminate|discriminate].
    apply N.eqb_eq in Y2. subst m. rewrite Hn. simpl in Hn.
    change (String_of_number (Finite n)) with (String_of n).
    rewrite fillMonths_get_other.
    + apply get_set_same. now apply String_of_month_proto.
    + exact Hn.
    + rewrite forallb_forall in Hc |- *. intros r Hr.
      apply filter_In in Hr as [Hr Ha]. specialize (Hc r Hr).
      now rewrite Ha in Hc.
Qed.

Lemma C5_last_write_wins_witness :
  exists out,
    rotations "now" ([] ++ nth 0 Sample.rows [] :: firstn 2 (skipn 1 Sample.rows)
                        ++ nth 3 Sample.rows [] :: []) = Ok out
    /\ Obj.get (String_of 7) (months (written out))
       = Some (entryOf (nth 3 Sample.rows [])).
Proof.
  apply (@C5_last_write_wins "now" [] (firstn 2 (skipn 1 Sample.rows)) []
           (nth 0 Sample.rows []) (nth 3 Sample.rows []) 7%N); reflexivity.
Defined.

(** C8.  From the parsed rows on, the run fails with the error of the
    missing list exactly when no row has the target list identifier; when a
    row has it, the run goes on and gives the table built from the rows of
    the list, complete or not.  For [main] as a whole: it fails with that
    error exactly when the export was found and none of its rows has the
    identifier. *)
Theorem C8_missing_list_error :
  (forall (now : str) (rows : list row),
      rotations now rows = Throw NoAxolotlRows <-> existsb isAxoRow rows = false)
  /\ (forall (now : str) (rows : list row),
        existsb isAxoRow rows = true ->
        exists out,
          rotations now rows = Ok out
          /\ months (written out) = fillMonths (filter isAxoRow rows) [])
  /\ (forall (repoRoot : fsnode) (now : str),
        main repoRoot now = Throw NoAxolotlRows
        <-> exists entriesPath,
              pickLatestLvliEntriesTsv repoRoot = Ok entriesPath
              /\ existsb isAxoRow (parseTSV (readTextLatin1 repoRoot entriesPath)) = false).
Proof.
  assert (F : forall rows, filter isAxoRow rows = [] <-> existsb isAxoRow rows = false).
  { induction rows as [|r rows IH]; simpl; [tauto|].
    destruct (isAxoRow r); simpl; [split; discriminate|exact IH]. }
  assert (R : forall now rows,
             rotations now rows = Throw NoAxolotlRows <-> existsb isAxoRow rows = false).
  { intros now rows. rewrite <- F. unfold rotations.
    destruct (filter isAxoRow rows); split; try reflexivity; discriminate. }
  split; [exact R|split].
  - intros now rows H. unfold rotations.
    destruct (filter isAxoRow rows) eqn:E.
    + apply F in E. congruence.
    + eexists. split; reflexivity.
  - intros repoRoot now. unfold main.
    destruct (pickLatestLvliEntriesTsv repoRoot) as [p|e] eqn:P.
    + rewrite R. split.
      * intros H. now exists p.
      * intros (p' & Hp & H). inversion Hp. now subst.
    + split.
      * intros H. inversion H. subst e.
        unfold pickLatestLvliEntriesTsv in P.
        destruct (lookup repoRoot (join [] "tsv")) as [[|items]|]; try discriminate.
        destruct (sort _ _); discriminate.
      * intros (p' & Hp & _). discriminate.
Qed.

Lemma C8_missing_list_error_witness :
  exists out,
    rotations "now" Sample.rows = Ok out
    /\ months (written out) = fillMonths (filter isAxoRow Sample.rows) [].
Proof.
  apply (proj1 (proj2 C8_missing_list_error) "now" Sample.rows). reflexivity.
Defined.

(** ** The files that the listing finds *)

Lemma lookup_app (a b : path) : forall root : fsnode,
  lookup root (a ++ b) =
  match lookup root a with
  | Some d => lookup d b
  | None => None
  end.
Proof.
  induction a as [|n a IH]; intros root; [reflexivity|].
  simpl. destruct root as [t c|items]; [reflexivity|].
  destruct (child n items); [apply IH|reflexivity].
Qed.

Lemma child_in (name : str) (it : fsnode) (items : list (str * fsnode)) :
  NoDup (map fst items) -> In (name, it) items -> child name items = Some it.
Proof.
  induction items as [|[n x] items IH]; intros D H; [destruct H|].
  simpl in D. inversion D as [|? ? Hn D']. subst.
  simpl. destruct H as [H|H].
  - inversion H. subst. now rewrite str_eqb_refl.
  - destruct (str_eqb name n) eqn:E.
    + apply str_eqb_eq in E. subst n. exfalso. apply Hn.
      apply in_map_iff. now exists (name, it).
    + now apply IH.
Qed.

Lemma distinct_names_items (items : list (str * fsnode)) :
  distinct_names (FDir items) ->
  NoDup (map fst items) /\ forall e, In e items -> distinct_names (snd e).
Proof.
  simpl. intros [D A]. split; [exact D|]. clear D.
  induction items as [|[n x] items IH]; intros e H; [destruct H|].
  destruct A as [Ax A]. destruct H as [<-|H]; [exact Ax|now apply IH].
Qed.

Lemma listFilesRecursive_dir (dir : path) (items : list (str * fsnode)) (p : path) :
  In p (listFilesRecursive dir (FDir items)) ->
  exists name it,
    In (name, it) items
    /\ match it with
       | FDir _ => In p (listFilesRecursive (join dir name) it)
       | FFile _ _ => p = join dir name
       end.
Proof.
  simpl. induction items as [|[n x] items IH]; intros H; [destruct H|].
  apply in_app_or in H as [H|H].
  - exists n, x. split; [now left|].
    destruct x; [now destruct H as [<-|[]]|exact H].
  - apply IH in H as (name & it & H1 & H2).
    exists name, it. split; [now right|exact H2].
Qed.

(** In a tree whose directories hold no name twice, every listed path
    names a regular file of the tree. *)
Lemma listFilesRecursive_files (d : fsnode) : forall (dir p : path),
  distinct_names d ->
  In p (listFilesRecursive dir d) ->
  exists q t c, p = dir ++ q /\ lookup d q = Some (FFile t c).
Proof.
  induction d as [t c|items IH] using fsnode_tree_ind; intros dir p D H;
    [destruct H|].
  apply distinct_names_items in D as [D A].
  apply listFilesRecursive_dir in H as (name & it & Hin & H).
  rewrite Forall_forall in IH.
  pose proof (@child_in name it items D Hin) as C.
  destruct it as [t c|sub].
  - exists [name], t, c. split; [exact H|]. simpl. now rewrite C.
  - destruct (IH (name, FDir sub) Hin (join dir name) p (A (name, FDir sub) Hin) H)
      as (q & t & c & -> & L).
    exists (name :: q), t, c. split.
    + unfold join. now rewrite <- app_assoc.
    + simpl. now rewrite C.
Qed.

Lemma distinct_names_lookup (p : path) : forall root d : fsnode,
  distinct_names root -> lookup root p = Some d -> distinct_names d.
Proof.
  induction p as [|n p IH]; intros root d D H; simpl in H.
  - inversion H. now subst.
  - destruct root as [t c|items]; [discriminate|].
    destruct (child n items) as [it|] eqn:C; [|discriminate].
    apply (IH it d); [|exact H].
    apply distinct_names_items in D as [_ A].
    assert (I : In (n, it) items).
    { clear -C. induction items as [|[m x] items IH]; [discriminate|].
      simpl in C. destruct (str_eqb n m) eqn:E.
      - apply str_eqb_eq in E. inversion C. subst. now left.
      - right. now apply IH. }
    exact (A _ I).
Qed.

(** Every candidate is a regular file of the tree: [mtimeMs] and
    [readTextLatin1] give its own time and text. *)
Lemma candidates_are_files (repoRoot : fsnode) (items : list (str * fsnode)) (p : path) :
  distinct_names repoRoot ->
  lookup repoRoot (join [] "tsv") = Some (FDir items) ->
  In p (candidates items) ->
  exists t c,
    lookup repoRoot p = Some (FFile t c)
    /\ mtimeMs repoRoot p = t /\ readTextLatin1 repoRoot p = c.
Proof.
  intros D L H. unfold candidates in H. apply filter_In in H as [H _].
  pose proof (@distinct_names_lookup (join [] "tsv") repoRoot (FDir items) D L) as D'.
  destruct (@listFilesRecursive_files (FDir items) (join [] "tsv") p D' H) as (q & t & c & -> & Lq).
  exists t, c.
  assert (E : lookup repoRoot (join [] "tsv" ++ q) = Some (FFile t c))
    by (now rewrite lookup_app, L).
  unfold mtimeMs, readTextLatin1. rewrite E. repeat split.
Qed.

(** ** The newest export (pickLatestLvliEntriesTsv) *)

Section SortFacts.
Variable T : Type.
Variable key : T -> Z.

(** The comparator of the script: [key b - key a]. *)
Let cmp (a b : T) : Z := (key b - key a)%Z.

Lemma sort_insert_head (a : T) (l : list T) :
  exists x t, sort_insert cmp a l = x :: t
    /\ ((x = a /\ forall y, hd_error l = Some y -> (key y <= key a)%Z)
        \/ (hd_error l = Some x /\ (key a < key x)%Z)).
Proof.
  destruct l as [|b l]; simpl.
  - exists a, []. split; [reflexivity|]. left. split; [reflexivity|]. discriminate.
  - unfold cmp at 1. destruct (Z.leb_spec (key b - key a) 0).
    + exists a, (b :: l). split; [reflexivity|]. left. split; [reflexivity|].
      intros y Hy. inversion Hy. subst. lia.
    + exists b, (sort_insert cmp a l). split; [reflexivity|]. right.
      split; [reflexivity|lia].
Qed.

(** The first element of the sorted list has the greatest key. *)
Lemma sort_head (l : list T) :
  match sort cmp l with
  | [] => l = []
  | x :: _ => In x l /\ forall y, In y l -> (key y <= key x)%Z
  end.
Proof.
  induction l as [|a l IH]; [reflexivity|].
  change (sort cmp (a :: l)) with (sort_insert cmp a (sort cmp l)).
  destruct (sort_insert_head a (sort cmp l)) as (x & t & -> & H).
  destruct (sort cmp l) as [|z zs] eqn:E.
  - subst l. destruct H as [[-> _]|[H _]]; [|discriminate].
    split; [now left|]. intros y [<-|[]]. lia.
  - destruct IH as [Iz Mz]. destruct H as [[-> H]|[H Lt]].
    + specialize (H z eq_refl). split; [now left|].
      intros y [<-|Hy]; [lia|]. specialize (Mz y Hy). lia.
    + inversion H. subst x. split; [now right|].
      intros y [<-|Hy]; [lia|now apply Mz].
Qed.
End SortFacts.

(** C9.  The selection returns a candidate (a file under tsv/ whose base
    name matches the naming pattern) whose modification time is the greatest
    among the candidates, whenever there is a candidate; among three
    exports with times t1 < t2 < t3 it returns the one with t3.  It fails
    with the error of the missing folder exactly when tsv/ does not exist,
    and with the error of the missing export exactly when tsv/ is a folder
    without a candidate. *)
Theorem C9_file_selection :
  (forall (repoRoot : fsnode) (items : list (str * fsnode)),
      lookup repoRoot (join [] "tsv") = Some (FDir items) ->
      candidates items <> [] ->
      exists newest,
        pickLatestLvliEntriesTsv repoRoot = Ok newest
        /\ In newest (candidates items)
        /\ forall p, In p (candidates items) ->
                     (mtimeMs repoRoot p <= mtimeMs repoRoot newest)%Z)
  /\ (forall (t1 t2 t3 : Z) (c1 c2 c3 : str),
        (t1 < t2 < t3)%Z ->
        pickLatestLvliEntriesTsv
          (FDir [("tsv",
                  FDir [("LVLI_Export_Feb_2026_LVLI_Entries.tsv", FFile t2 c2);
                        ("LVLI_Export_Mar_2026_LVLI_Entries.tsv", FFile t3 c3);
                        ("LVLI_Export_Jan_2026_LVLI_Entries.tsv", FFile t1 c1)])])
        = Ok ["tsv"; "LVLI_Export_Mar_2026_LVLI_Entries.tsv"])
  /\ (forall repoRoot : fsnode,
        pickLatestLvliEntriesTsv repoRoot = Throw MissingTsvFolder
        <-> existsSync repoRoot (join [] "tsv") = false)
  /\ (forall repoRoot : fsnode,
        pickLatestLvliEntriesTsv repoRoot = Throw NoEntriesTsv
        <-> exists items,
              lookup repoRoot (join [] "tsv") = Some (FDir items)
              /\ candidates items = []).
Proof.
  assert (P : forall repoRoot items,
             lookup repoRoot (join [] "tsv") = Some (FDir items) ->
             pickLatestLvliEntriesTsv repoRoot =
             match sort (fun a b => (mtimeMs repoRoot b - mtimeMs repoRoot a)%Z)
                        (candidates items) with
             | [] => Throw NoEntriesTsv
             | newest :: _ => Ok newest
             end).
  { intros repoRoot items H. unfold pickLatestLvliEntriesTsv. now rewrite H. }
  split; [|split; [|split]].
  - intros repoRoot items H Hne. rewrite (P _ _ H).
    pose proof (sort_head (mtimeMs repoRoot) (candidates items)) as S.
    destruct (sort _ (candidates items)) as [|x xs]; [contradiction|].
    exists x. split; [reflexivity|exact S].
  - intros t1 t2 t3 c1 c2 c3 [H12 H23].
    set (root := FDir [("tsv", FDir _)]).
    set (feb := ["tsv"; "LVLI_Export_Feb_2026_LVLI_Entries.tsv"]).
    set (mar := ["tsv"; "LVLI_Export_Mar_2026_LVLI_Entries.tsv"]).
    set (jan := ["tsv"; "LVLI_Export_Jan_2026_LVLI_Entries.tsv"]).
    assert (M1 : mtimeMs root jan = t1) by reflexivity.
    assert (M2 : mtimeMs root feb = t2) by reflexivity.
    assert (M3 : mtimeMs root mar = t3) by reflexivity.
    assert (C : filter isEntriesTsv (listFilesRecursive (join [] "tsv")
                  (FDir [("LVLI_Export_Feb_2026_LVLI_Entries.tsv", FFile t2 c2);
                         ("LVLI_Export_Mar_2026_LVLI_Entries.tsv", FFile t3 c3);
                         ("LVLI_Export_Jan_2026_LVLI_Entries.tsv", FFile t1 c1)]))
                = [feb; mar; jan]) by (vm_compute; reflexivity).
    unfold pickLatestLvliEntriesTsv.
    change (lookup root (join [] "tsv"))
      with (Some (FDir [("LVLI_Export_Feb_2026_LVLI_Entries.tsv", FFile t2 c2);
                        ("LVLI_Export_Mar_2026_LVLI_Entries.tsv", FFile t3 c3);
                        ("LVLI_Export_Jan_2026_LVLI_Entries.tsv", FFile t1 c1)])).
    cbv iota beta. rewrite C.
    unfold sort, fold_right, sort_insert. rewrite M1, M3.
    destruct (Z.leb_spec (t1 - t3) 0); [|lia].
    rewrite M1, M2, M3.
    destruct (Z.leb_spec (t3 - t2) 0); [lia|].
    reflexivity.
  - intros repoRoot. unfold pickLatestLvliEntriesTsv, existsSync.
    destruct (lookup repoRoot (join [] "tsv")) as [[|items]|].
    + split; discriminate.
    + destruct (sort _ _); split; discriminate.
    + split; reflexivity.
  - intros repoRoot.
    destruct (lookup repoRoot (join [] "tsv")) as [[t c|items]|] eqn:L.
    + unfold pickLatestLvliEntriesTsv. rewrite L.
      split; [discriminate|]. intros (items & H & _). discriminate.
    + rewrite (P _ _ L).
      pose proof (sort_head (mtimeMs repoRoot) (candidates items)) as S.
      destruct (sort _ (candidates items)) as [|x xs].
      * split; [|reflexivity]. intros _. now exists items.
      * split; [discriminate|]. intros (items' & H & E).
        inversion H. subst items'. rewrite E in S. destruct S as [[] _].
    + unfold pickLatestLvliEntriesTsv. rewrite L.
      split; [discriminate|]. intros (items & H & _). discriminate.
Qed.

Lemma C9_file_selection_witness :
  (exists newest,
     pickLatestLvliEntriesTsv Sample.repoRoot = Ok newest
     /\ In newest
          [["tsv"; "LVLI_Export_Jan_2026_LVLI_Entries.tsv"];
           ["tsv"; "2026-02"; "LVLI_Export_Feb_2026_LVLI_Entries.tsv"];
           ["tsv"; "lvli_export_Dec_2025_lvli_entries.TSV"]]
     /\ forall p,
          In p [["tsv"; "LVLI_Export_Jan_2026_LVLI_Entries.tsv"];
                ["tsv"; "2026-02"; "LVLI_Export_Feb_2026_LVLI_Entries.tsv"];
                ["tsv"; "lvli_export_Dec_2025_lvli_entries.TSV"]] ->
          (mtimeMs Sample.repoRoot p <= mtimeMs Sample.repoRoot newest)%Z)
  /\ pickLatestLvliEntriesTsv
       (FDir [("tsv",
               FDir [("LVLI_Export_Feb_2026_LVLI_Entries.tsv", FFile 20 "b");
                     ("LVLI_Export_Mar_2026_LVLI_Entries.tsv", FFile 30 "c");
                     ("LVLI_Export_Jan_2026_LVLI_Entries.tsv", FFile 10 "a")])])
     = Ok ["tsv"; "LVLI_Export_Mar_2026_LVLI_Entries.tsv"].
Proof.
  split.
  - apply (proj1 C9_file_selection Sample.repoRoot
             [("LVLI_Export_Jan_2026_LVLI_Entries.tsv", FFile 100 Sample.otherTsv);
              ("2026-02",
               FDir [("LVLI_Export_Feb_2026_LVLI_Entries.tsv", FFile 300 Sample.tsv);
                     ("notes.txt", FFile 400 [])]);
              ("lvli_export_Dec_2025_lvli_entries.TSV", FFile 200 Sample.otherTsv)]).
    + reflexivity.
    + vm_compute. discriminate.
  - apply (proj1 (proj2 C9_file_selection) 10%Z 20%Z 30%Z "a" "b" "c"). lia.
Defined.

(** ** Rows with more values than the header has names (parseTSV) *)

Lemma fillRow_firstn : forall (header parts : list str) (r : row),
  fillRow header parts r = fillRow header (firstn (length header) parts) r.
Proof.
  induction header as [|h header IH]; intros parts r; [reflexivity|].
  destruct parts as [|p parts]; [reflexivity|].
  simpl. apply IH.
Qed.

Lemma fillRow_names (k : str) : forall (header parts : list str) (r : row),
  In k (Obj.names (fillRow header parts r))
  <-> In k (Obj.names r) \/ (In k header /\ k <> "__proto__").
Proof.
  induction header as [|h header IH]; intros parts r; simpl.
  - tauto.
  - rewrite IH, names_set. split.
    + intros [[H|[-> H]]|[H1 H2]]; tauto.
    + intros [H|[[->|H1] H2]]; tauto.
Qed.

Lemma parseTSV_rows (tsvText : str) (r : row) :
  In r (parseTSV tsvText) ->
  exists line, In line (tl (tsvLines tsvText)) /\ r = rowOfLine (headerOf tsvText) line.
Proof.
  unfold parseTSV, headerOf. destruct (tsvLines tsvText) as [|first others]; [intros []|].
  intros H. apply in_map_iff in H as (line & <- & H). now exists line.
Qed.

(** C10.  The parser assigns one field for each header name, but the
    record is a plain object, and the assignment to the name __proto__ is
    taken by the inherited setter, which ignores a text: for the export
    below, the header has the names __proto__ and A, and the record of the
    data line has the field A alone.  The extra value z is dropped, as the
    claim says. *)
Lemma C10_failing_input :
  let text := "__proto__" ++ [TAB] ++ "A" ++ [LF] ++ "x" ++ [TAB] ++ "y" ++ [TAB] ++ "z" in
  headerOf text = ["__proto__"; "A"]
  /\ parseTSV text = [[("A", "y")]]
  /\ ~ In "__proto__" (Obj.keys (nth 0 (parseTSV text) [])).
Proof.
  repeat split; try reflexivity.
  intros [H|[]]. discriminate H.
Qed.

(** * Further properties of the script *)

(** ** What a match tells about the text *)

Module RegExpInv.

Arguments cls_match : simpl never.
Arguments lit_match : simpl never.

Lemma star_greedy_inv (A : Type) (ci : bool) (cc : charclass) :
  forall (l : str) (p : option ascii) (cs : list str) (k : mstate -> option A) (x : A),
    star_greedy ci cc cs p l k = Some x ->
    exists w l',
      l = w ++ l' /\ forallb (cls_match ci cc) w = true
      /\ k (MState (prev_after p w) l' cs) = Some x.
Proof.
  induction l as [|c l IH]; intros p cs k x H; simpl in H.
  - exists [], []. repeat split. exact H.
  - destruct (cls_match ci cc c) eqn:E.
    + destruct (star_greedy ci cc cs (Some c) l k) eqn:S.
      * inversion H; subst. apply IH in S as (w & l' & -> & Hw & Hk).
        exists (c :: w), l'. simpl. rewrite E, Hw. repeat split. exact Hk.
      * exists [], (c :: l). repeat split. exact H.
    + exists [], (c :: l). repeat split. exact H.
Qed.

Lemma star_lazy_inv (A : Type) (ci : bool) (cc : charclass) :
  forall (l : str) (p : option ascii) (cs : list str) (k : mstate -> option A) (x : A),
    star_lazy ci cc cs p l k = Some x ->
    exists w l',
      l = w ++ l' /\ forallb (cls_match ci cc) w = true
      /\ k (MState (prev_after p w) l' cs) = Some x.
Proof.
  induction l as [|c l IH]; intros p cs k x H; simpl in H.
  - destruct (k (MState p [] cs)) eqn:E; [|discriminate].
    inversion H; subst. exists [], []. repeat split. exact E.
  - destruct (k (MState p (c :: l) cs)) eqn:E.
    + inversion H; subst. exists [], (c :: l). repeat split. exact E.
    + destruct (cls_match ci cc c) eqn:C; [|discriminate].
      apply IH in H as (w & l' & -> & Hw & Hk).
      exists (c :: w), l'. simpl. rewrite C, Hw. repeat split. exact Hk.
Qed.

(** A greedy quantifier finds a match whenever some run of the class is
    followed by a match of the rest. *)
Lemma star_greedy_complete (A : Type) (ci : bool) (cc : charclass) (w : str) :
  forall (l : str) (p : option ascii) (cs : list str) (k : mstate -> option A),
    forallb (cls_match ci cc) w = true ->
    k (MState (prev_after p w) l cs) <> None ->
    star_greedy ci cc cs p (w ++ l) k <> None.
Proof.
  induction w as [|c w IH]; intros l p cs k Hw Hk; simpl in *.
  - destruct l as [|d l]; simpl; [exact Hk|].
    destruct (cls_match ci cc d); [|exact Hk].
    destruct (star_greedy ci cc cs (Some d) l k); [discriminate|exact Hk].
  - apply andb_true_iff in Hw as [Hc Hw]. rewrite Hc.
    specialize (IH l (Some c) cs k Hw Hk).
    destruct (star_greedy ci cc cs (Some c) (w ++ l) k); [discriminate|contradiction].
Qed.

Section Inv.
Variable A : Type.
Variable ci : bool.
Implicit Types (k : mstate -> option A) (r : regex) (cc : charclass).

Lemma run_cat r1 r2 st k :
  run ci (Cat r1 r2) st k = run ci r1 st (fun st' => run ci r2 st' k).
Proof. reflexivity. Qed.

Lemma run_lit_inv (c : ascii) r st k x :
  run ci (Cat (Lit c) r) st k = Some x ->
  exists d l,
    rest st = d :: l /\ lit_match ci c d = true
    /\ run ci r (MState (Some d) l (caps st)) k = Some x.
Proof.
  simpl. destruct (rest st) as [|d l]; [discriminate|].
  destruct (lit_match ci c d) eqn:E; [|discriminate].
  intros H. now exists d, l.
Qed.

Lemma run_lits_cat_inv (w : str) r st k x :
  run ci (Cat (lits w) r) st k = Some x ->
  exists w' l,
    rest st = w' ++ l /\ length w' = length w /\ lits_match ci w w' = true
    /\ run ci r (MState (prev_after (prev st) w') l (caps st)) k = Some x.
Proof. rewrite run_cat. apply run_lits_split. Qed.

Lemma run_plus_inv g cc r st k x :
  run ci (Cat (Plus g cc) r) st k = Some x ->
  exists w l,
    rest st = w ++ l /\ w <> [] /\ forallb (cls_match ci cc) w = true
    /\ run ci r (MState (prev_after (prev st) w) l (caps st)) k = Some x.
Proof.
  simpl. destruct (rest st) as [|c t]; [discriminate|].
  destruct (cls_match ci cc c) eqn:E; [|discriminate].
  intros H. destruct g.
  - apply star_greedy_inv in H as (w & l & -> & Hw & Hk).
    exists (c :: w), l. simpl. rewrite E, Hw. repeat split; [discriminate|exact Hk].
  - apply star_lazy_inv in H as (w & l & -> & Hw & Hk).
    exists (c :: w), l. simpl. rewrite E, Hw. repeat split; [discriminate|exact Hk].
Qed.

Lemma run_star_inv g cc r st k x :
  run ci (Cat (Star g cc) r) st k = Some x ->
  exists w l,
    rest st = w ++ l /\ forallb (cls_match ci cc) w = true
    /\ run ci r (MState (prev_after (prev st) w) l (caps st)) k = Some x.
Proof.
  simpl. intros H. destruct g.
  - now apply star_greedy_inv in H.
  - now apply star_lazy_inv in H.
Qed.

Lemma run_group_plus_inv cc r st k x :
  run ci (Cat (Group (Plus true cc)) r) st k = Some x ->
  exists w l,
    rest st = w ++ l /\ w <> [] /\ forallb (cls_match ci cc) w = true
    /\ run ci r (MState (prev_after (prev st) w) l (caps st ++ [w])) k = Some x.
Proof.
  intros H.
  change (run ci (Cat (Group (Plus true cc)) r) st k)
    with (run ci (Cat (Plus true cc) Empty) st
            (fun st' =>
               run ci r (MState (prev st') (rest st')
                 (caps st' ++ [firstn (length (rest st) - length (rest st')) (rest st)])) k))
    in H.
  apply run_plus_inv in H as (w & l & R & Hne & Hw & Hk).
  exists w, l. repeat split; try assumption.
  simpl in Hk. rewrite R, firstn_consumed in Hk. exact Hk.
Qed.

Lemma run_group_lits_plus_inv (w : str) cc r st k x :
  run ci (Cat (Group (Cat (lits w) (Plus true cc))) r) st k = Some x ->
  exists w' v l,
    rest st = w' ++ v ++ l /\ length w' = length w /\ lits_match ci w w' = true
    /\ v <> [] /\ forallb (cls_match ci cc) v = true
    /\ run ci r (MState (prev_after (prev st) (w' ++ v)) l (caps st ++ [w' ++ v])) k
       = Some x.
Proof.
  intros H.
  change (run ci (Cat (Group (Cat (lits w) (Plus true cc))) r) st k)
    with (run ci (Cat (lits w) (Cat (Plus true cc) Empty)) st
            (fun st' =>
               run ci r (MState (prev st') (rest st')
                 (caps st' ++ [firstn (length (rest st) - length (rest st')) (rest st)])) k))
    in H.
  apply run_lits_cat_inv in H as (w' & l0 & R & Lw & Mw & H).
  apply run_plus_inv in H as (v & l & R' & Hne & Hv & Hk).
  simpl in R'. subst l0.
  exists w', v, l. repeat split; try assumption.
  simpl in Hk. rewrite R, app_assoc, firstn_consumed, <- prev_after_app in Hk. exact Hk.
Qed.

Lemma run_lits_ci (w : str) : forall (w' : str) p l cs k,
  length w = length w' -> lits_match ci w w' = true ->
  run ci (lits w) (MState p (w' ++ l) cs) k = k (MState (prev_after p w') l cs).
Proof.
  induction w as [|c w IH]; intros [|d w'] p l cs k L M; simpl in *;
    try discriminate; [reflexivity|].
  apply andb_true_iff in M as [M1 M2]. rewrite M1. apply IH; [lia|exact M2].
Qed.
End Inv.

(** A match of the search is a match at some position. *)
Lemma search_inv (ci : bool) (r : regex) : forall (l : str) (i : nat) (p : option ascii)
    (m : match_result),
  search ci r i p l = Some m ->
  exists a b st,
    l = a ++ b /\ index m = i + length a
    /\ run ci r (MState (prev_after p a) b []) (fun st => Some st) = Some st
    /\ groups m = caps st
    /\ matched m = firstn (length b - length (rest st)) b.
Proof.
  induction l as [|c l IH]; intros i p m H; rewrite search_eq in H.
  - destruct (run ci r (MState p [] []) (fun st => Some st)) as [st|] eqn:E;
      [|discriminate].
    inversion H; subst. exists [], [], st. simpl. rewrite Nat.add_0_r. tauto.
  - destruct (run ci r (MState p (c :: l) []) (fun st => Some st)) as [st|] eqn:E.
    + inversion H; subst. exists [], (c :: l), st. simpl. rewrite Nat.add_0_r. tauto.
    + apply IH in H as (a & b & st & -> & Hi & Hr & Hg & Hm).
      exists (c :: a), b, st. simpl. repeat split; try assumption. lia.
Qed.

(** The search finds a match whenever the pattern matches somewhere. *)
Lemma search_complete (ci : bool) (r : regex) (a : str) : forall (b : str) (i : nat)
    (p : option ascii),
  run ci r (MState (prev_after p a) b []) (fun st => Some st) <> None ->
  search ci r i p (a ++ b) <> None.
Proof.
  induction a as [|c a IH]; intros b i p H; rewrite search_eq; simpl in *.
  - destruct (run ci r (MState p b []) (fun st => Some st)); [discriminate|contradiction].
  - destruct (run ci r (MState p (c :: a ++ b) []) (fun st => Some st)); [discriminate|].
    now apply IH.
Qed.

(** A pattern anchored at the start matches at the start only. *)
Lemma search_anchored (ci : bool) (r : regex) (s : str) :
  exec ci (Cat Bos r) s =
  match run ci r (MState None s []) (fun st => Some st) with
  | Some st => Some (MatchResult 0 (firstn (length s - length (rest st)) s) (caps st))
  | None => None
  end.
Proof.
  unfold exec. rewrite search_eq.
  change (run ci (Cat Bos r) (MState None s []) (fun st => Some st))
    with (run ci r (MState None s []) (fun st => Some st)).
  destruct (run ci r (MState None s []) (fun st => Some st)); [reflexivity|].
  destruct s as [|c s]; [reflexivity|].
  assert (F : forall l i d, search ci (Cat Bos r) i (Some d) l = None).
  { induction l as [|e l IH]; intros i d; rewrite search_eq; simpl; [reflexivity|].
    apply IH. }
  apply F.
Qed.

(** Without the [i] flag a literal matches itself only; with it, a
    character that is no letter matches itself only. *)
Lemma lits_match_exact (w : str) : forall w' : str,
  length w' = length w -> lits_match false w w' = true -> w' = w.
Proof.
  induction w as [|c w IH]; intros [|d w'] L M; simpl in *; try discriminate;
    [reflexivity|].
  apply andb_true_iff in M as [M1 M2].
  unfold lit_match, canon in M1. apply Ascii.eqb_eq in M1. subst d.
  f_equal. apply IH; [lia|exact M2].
Qed.




End RegExpInv.

Import RegExpInv.

(** ** Which names and texts the patterns accept *)

Lemma same_ci_spec (w w' : str) :
  same_ci w w' = true <-> length w' = length w /\ lits_match true w w' = true.
Proof.
  unfold same_ci. rewrite andb_true_iff, Nat.eqb_eq. intuition congruence.
Qed.

Lemma nonempty_spec (s : str) : negb (isEmpty s) = true <-> s <> [].
Proof. destruct s; simpl; split; congruence. Qed.

(** What a name that passes the test of the condition fields is made of. *)
Lemma isCondKey_inv (k : str) :
  isCondKey k = true ->
  exists w d,
    k = w ++ d /\ same_ci "Cond" w = true
    /\ negb (isEmpty d) = true /\ forallb is_digit d = true.
Proof.
  unfold isCondKey, test, re_cond.
  change (cats [Bos; lits "Cond"; Plus true cc_digit; Eos])
    with (Cat Bos (Cat (lits "Cond") (Cat (Plus true cc_digit) (Cat Eos Empty)))).
  rewrite search_anchored.
  destruct (run true _ (MState None k []) (fun st => Some st)) as [st|] eqn:E;
    [intros _|discriminate].
  apply run_lits_cat_inv in E as (w & l & R & Lw & Mw & E).
  apply run_plus_inv in E as (d & l' & R' & Hne & Hd & E).
  simpl in R, R', E. destruct l' as [|? ?]; [|discriminate].
  subst. exists w, d. rewrite app_nil_r. repeat split.
  - apply same_ci_spec. now split.
  - now apply nonempty_spec.
  - now rewrite <- (forallb_eq _ _ d cls_digit).
Qed.

(** X1.  The condition fields are exactly the fields named Cond, in any
    letter case, followed by one or more decimal digits and nothing else. *)
Theorem isCondKey_spec (k : str) :
  isCondKey k = true
  <-> exists w d,
        k = w ++ d /\ same_ci "Cond" w = true
        /\ negb (isEmpty d) = true /\ forallb is_digit d = true.
Proof.
  split; [apply isCondKey_inv|].
  unfold isCondKey, test, re_cond.
  change (cats [Bos; lits "Cond"; Plus true cc_digit; Eos])
    with (Cat Bos (Cat (lits "Cond") (Cat (Plus true cc_digit) (Cat Eos Empty)))).
  rewrite search_anchored.
  - intros (w & d & -> & Hw & Hne & Hd).
    apply same_ci_spec in Hw as [Lw Mw]. apply nonempty_spec in Hne.
    rewrite run_cat, run_lits_ci by (auto; congruence).
    rewrite <- (app_nil_r d).
    erewrite run_cat_plus_greedy; [reflexivity|exact Hne| |reflexivity|reflexivity].
    now rewrite (forallb_eq _ _ d cls_digit).
Qed.

Lemma isCondKey_spec_witness :
  isCondKey ("cOND" ++ "042") = true.
Proof.
  apply (proj2 (isCondKey_spec ("cOND" ++ "042"))).
  exists "cOND", "042". repeat split.
Defined.

Lemma run_star_greedy (A : Type) (ci : bool) (cc : charclass) p l cs
    (k : mstate -> option A) :
  run ci (Star true cc) (MState p l cs) k = star_greedy ci cc cs p l k.
Proof. reflexivity. Qed.

(** X2.  A file is a candidate exactly when its base name has, somewhere,
    LVLI_Export_ and, at its end, _LVLI_Entries.tsv, both in any letter
    case, with no line break between them; characters before LVLI_Export_
    are allowed. *)
Theorem isEntriesTsv_spec (p : path) :
  isEntriesTsv p = true
  <-> exists a w1 mid w2,
        basename p = a ++ w1 ++ mid ++ w2
        /\ same_ci "LVLI_Export_" w1 = true
        /\ forallb (fun c => negb (is_line_terminator c)) mid = true
        /\ same_ci "_LVLI_Entries.tsv" w2 = true.
Proof.
  unfold isEntriesTsv, test, exec, re_entries.
  change (cats [lits "LVLI_Export_"; Star true cc_dot; lits "_LVLI_Entries.tsv"; Eos])
    with (Cat (lits "LVLI_Export_") (Cat (Star true cc_dot)
            (Cat (lits "_LVLI_Entries.tsv") (Cat Eos Empty)))).
  split.
  - destruct (search true _ 0 None (basename p)) as [m|] eqn:E; [intros _|discriminate].
    apply search_inv in E as (a & b & st & Hs & _ & E & _).
    apply run_lits_cat_inv in E as (w1 & l & R & L1 & M1 & E).
    apply run_star_inv in E as (mid & l' & R' & Hmid & E).
    apply run_lits_cat_inv in E as (w2 & l'' & R'' & L2 & M2 & E).
    simpl in R, R', R'', E. destruct l'' as [|? ?]; [|discriminate].
    subst. exists a, w1, mid, w2. rewrite app_nil_r in Hs. repeat split.
    + exact Hs.
    + apply same_ci_spec. now split.
    + now rewrite <- (forallb_eq _ _ mid cls_dot).
    + apply same_ci_spec. now split.
  - intros (a & w1 & mid & w2 & -> & H1 & Hmid & H2).
    apply same_ci_spec in H1 as [L1 M1]. apply same_ci_spec in H2 as [L2 M2].
    destruct (search true _ 0 None (a ++ w1 ++ mid ++ w2)) eqn:E; [reflexivity|].
    exfalso. revert E. apply search_complete.
    rewrite run_cat, run_lits_ci by (auto; congruence).
    rewrite run_cat, run_star_greedy.
    rewrite <- (app_nil_r w2).
    apply star_greedy_complete.
    + now rewrite (forallb_eq _ _ mid cls_dot).
    + rewrite run_cat, run_lits_ci by (auto; congruence). discriminate.
Qed.

Lemma isEntriesTsv_spec_witness :
  isEntriesTsv ["tsv"; "old_lvli_EXPORT_Feb_2026_LVLI_entries.TSV"] = true.
Proof.
  apply (proj2 (isEntriesTsv_spec ["tsv"; "old_lvli_EXPORT_Feb_2026_LVLI_entries.TSV"])).
  exists "old_", "lvli_EXPORT_", "Feb_2026", "_LVLI_entries.TSV". repeat split.
Defined.

(** ** Where a month number and a tag come from *)




(** A long numeral is rounded, and a very long one gives [Infinity], which
    [main] skips like any number above 12. *)
Example Number_rounds : Number "9007199254740993" = Finite 9007199254740992.
Proof. vm_compute. reflexivity. Qed.

Example Number_overflows :
  Number ("1" ++ repeat "0"%char 309) = Infinity
  /\ skipped (Some (Number ("1" ++ repeat "0"%char 309))) = true.
Proof. split; vm_compute; reflexivity. Qed.




Lemma regionOfCond_inv (s t : str) :
  regionOfCond s = Some t ->
  exists pre ident ws post,
    s = regionCond pre ident ws post
    /\ regionMatchOk pre ident ws = true
    /\ t = camelSpace ident.
Proof.
  unfold regionOfCond. destruct (exec false re_region s) as [m|] eqn:E; [|discriminate].
  intros H. inversion H; subst t. clear H.
  unfold exec in E. apply search_inv in E as (pre & b & st & -> & _ & E & G & _).
  unfold re_region in E.
  change (cats [WordB; Group (Cat (lits "LocRegion") (Plus true cc_ident));
                Plus true cc_space; lits "[KYWD:"])
    with (Cat WordB (Cat (Group (Cat (lits "LocRegion") (Plus true cc_ident)))
            (Cat (Plus true cc_space) (Cat (lits "[KYWD:") Empty)))) in E.
  change (run false (Cat WordB ?r) ?st ?k)
    with (if xorb (word_at (prev st)) (word_at (hd_error (rest st)))
          then run false r st k else None) in E.
  destruct (xorb _ _) eqn:X; [|discriminate].
  apply run_group_lits_plus_inv in E as (w & ident & l & R & Lw & Mw & Ni & Hi & E).
  apply (@lits_match_exact "LocRegion" w Lw) in Mw. subst w.
  apply run_plus_inv in E as (ws & l2 & R2 & Nws & Hws & E).
  apply run_lits_cat_inv in E as (z & post & R3 & Lz & Mz & E).
  apply (@lits_match_exact "[KYWD:" z Lz) in Mz. subst z.
  simpl in R, R2, R3, E, X. inversion E; subst st. clear E.
  rewrite R in X. simpl in X. rewrite xorb_true_r in X. apply negb_true_iff in X.
  assert (Wi : forallb is_word ident = true)
    by now rewrite <- (forallb_eq _ _ ident cls_ident).
  exists pre, ident, ws, post. split; [|split].
  - unfold regionCond. subst. reflexivity.
  - unfold regionMatchOk. rewrite X, Wi.
    rewrite (proj2 (nonempty_spec ident) Ni), (proj2 (nonempty_spec ws) Nws).
    rewrite <- (forallb_eq _ _ ws cls_space_cs), Hws. reflexivity.
  - unfold group. rewrite G. simpl. now apply prettyFromLocRegion_token.
Qed.

(** Every tag of a record is what the text of some condition field gives,
    and is not empty. *)
Lemma extractRegions_field (r : row) (t : str) :
  In t (extractRegions r) ->
  exists k s,
    isCondKey k = true /\ Obj.get k r = Some s
    /\ regionOfCond s = Some t /\ t <> [].
Proof.
  intros H. unfold extractRegions in H.
  apply extractRegions_loop_in in H as [[]|(k & Hk & T)].
  unfold tagOfField in T. destruct (isCondKey k) eqn:C; [|discriminate].
  destruct (regionOfCond (orEmpty (Obj.get k r))) as [pretty|] eqn:R; [|discriminate].
  destruct (isEmpty pretty) eqn:Ep; [discriminate|]. inversion T; subst pretty. clear T.
  apply keys_names, names_get in Hk as (s & G). rewrite G in R. simpl in R.
  exists k, s. repeat split; try assumption.
  intros E. rewrite E in Ep. discriminate.
Qed.

(** X4.  Every tag of a record comes from a region token: some condition
    field of the record holds a text with LocRegion and an identifier of
    word characters, not after a word character, followed by white space
    and [KYWD:, and the tag is that identifier with a space wherever an
    upper-case letter follows a lower-case one.  No tag is empty. *)
Theorem extractRegions_sound (r : row) (t : str) :
  In t (extractRegions r) ->
  exists k pre ident ws post,
    isCondKey k = true
    /\ Obj.get k r = Some (regionCond pre ident ws post)
    /\ regionMatchOk pre ident ws = true
    /\ t = camelSpace ident
    /\ t <> [].
Proof.
  intros H. apply extractRegions_field in H as (k & s & C & G & R & Ne).
  apply regionOfCond_inv in R as (pre & ident & ws & post & -> & Ok & ->).
  exists k, pre, ident, ws, post. repeat split; assumption.
Qed.

Lemma extractRegions_sound_witness :
  exists k pre ident ws post,
    isCondKey k = true
    /\ Obj.get k (nth 0 Sample.rows []) = Some (regionCond pre ident ws post)
    /\ regionMatchOk pre ident ws = true
    /\ "Forest Floodlands" = camelSpace ident
    /\ "Forest Floodlands" <> [].
Proof.
  apply (@extractRegions_sound (nth 0 Sample.rows []) "Forest Floodlands").
  vm_compute. auto.
Defined.

(** ** The display name and the tags as texts *)

Lemma cls_not_colon (c : ascii) :
  cls_match true cc_not_colon c = negb (Ascii.eqb c ":").
Proof. destruct c as [[] [] [] [] [] [] [] []]; reflexivity. Qed.

Lemma no_colon_occur (s : str) :
  forallb (fun c => negb (Ascii.eqb c ":")) s = true -> lits_occur true ":" s = false.
Proof.
  induction s as [|c s IH]; intros H; [reflexivity|].
  simpl in H. apply andb_true_iff in H as [Hc Hs].
  simpl. rewrite (IH Hs), orb_false_r, andb_true_r.
  destruct (lit_match true ":" c) eqn:E; [|reflexivity].
  apply lit_match_colon in E. subst c. discriminate.
Qed.

Lemma re_fish_begins : begins_with true re_fish ":".
Proof.
  intros st x H. unfold re_fish in H.
  change (cats [Lit ":"%char; Group (Plus true cc_not_colon); lits ":FISH"; WordB])
    with (Cat (Lit ":"%char)
            (Cat (Group (Plus true cc_not_colon)) (Cat (lits ":FISH") (Cat WordB Empty))))
    in H.
  apply run_lit_inv in H as (d & l & R & M & _). rewrite R. simpl. now rewrite M.
Qed.

Lemma same_ci_word_end (w tag : str) (p : option ascii) :
  w <> [] -> forallb is_word w = true -> same_ci w tag = true ->
  word_at (prev_after p tag) = true.
Proof.
  intros Hne Hw H. apply same_ci_spec in H as [L M].
  revert tag p L M. induction w as [|c w IH]; intros tag p L M; [contradiction|].
  destruct tag as [|d tag]; [discriminate|].
  simpl in Hw, M, L. apply andb_true_iff in Hw as [Hc Hw].
  apply andb_true_iff in M as [Mc M].
  destruct w as [|c' w].
  - destruct tag; [|discriminate]. simpl.
    apply lit_match_word in Mc. congruence.
  - simpl prev_after. apply IH; [discriminate|exact Hw|lia|exact M].
Qed.

Lemma re_fish_run (edid tag post : str) (p : option ascii) :
  fishRefOk [] edid tag post = true ->
  run true re_fish (MState p (":" ++ edid ++ ":" ++ tag ++ post) []) (fun st => Some st)
  = Some (MState (prev_after (Some ":"%char) tag) post [edid]).
Proof.
  unfold fishRefOk. rewrite !andb_true_iff, !negb_true_iff.
  intros [[[[_ Ne] He] Ht] Hp].
  assert (W : word_at (prev_after (Some ":"%char) tag) = true)
    by (apply (@same_ci_word_end "FISH" tag); [discriminate|reflexivity|exact Ht]).
  apply same_ci_spec in Ht as [Lt Mt].
  unfold re_fish.
  change (cats [Lit ":"%char; Group (Plus true cc_not_colon); lits ":FISH"; WordB])
    with (Cat (Lit ":"%char)
            (Cat (Group (Plus true cc_not_colon))
               (Cat (lits ":FISH") (Cat WordB Empty)))).
  change (":" ++ edid ++ ":" ++ tag ++ post)
    with (":"%char :: (edid ++ (":" ++ tag) ++ post)).
  rewrite run_cat_lit.
  apply run_cat_group_plus_greedy;
    [now apply isEmpty_false
    |now rewrite (forallb_eq _ _ edid cls_not_colon)
    |reflexivity|].
  rewrite run_cat, run_lits_ci;
    [|simpl in *; lia|exact Mt].
  change (prev_after (prev_after (Some ":"%char) edid) (":" ++ tag))
    with (prev_after (Some ":"%char) tag).
  simpl. rewrite W, Hp. reflexivity.
Qed.

(** X5.  For a reference id:identifier:FISH (no colon in the id or in the
    identifier, FISH in any letter case and not followed by a word
    character) the display name is the part of the identifier after its
    last underscore, with camel-case spaces, trimmed. *)
Theorem prettyFromFishRef_shape (id edid tag post : str) :
  fishRefOk id edid tag post = true ->
  prettyFromFishRef (Some (fishRef id edid tag post))
  = trim (camelSpace (last (split "_" edid) [])).
Proof.
  intros Hok. unfold prettyFromFishRef, fishRef, exec. simpl orEmpty.
  assert (Hid : lits_occur true ":" (id ++ []) = false).
  { rewrite app_nil_r. apply no_colon_occur.
    unfold fishRefOk in Hok. rewrite !andb_true_iff in Hok. tauto. }
  assert (Hok' : fishRefOk [] edid tag post = true).
  { unfold fishRefOk in *. rewrite !andb_true_iff in *. simpl. tauto. }
  assert (E : search true re_fish 0 None
                (id ++ [] ++ ":" ++ edid ++ ":" ++ tag ++ post)
              = search true re_fish (0 + length id) (prev_after None id)
                  ([] ++ ":" ++ edid ++ ":" ++ tag ++ post))
    by (apply (@search_skip_lits true re_fish ":" id []);
        [exact re_fish_begins|simpl; lia|exact Hid]).
  change ([] ++ ":" ++ edid ++ ":" ++ tag ++ post)
    with (":" ++ edid ++ ":" ++ tag ++ post) in E.
  rewrite (@search_here true re_fish _ _ _ _ (@re_fish_run edid tag post _ Hok')) in E.
  match goal with
  | |- context [search true re_fish 0 None ?t] =>
      change (search true re_fish 0 None t)
        with (search true re_fish 0 None (id ++ ":" ++ edid ++ ":" ++ tag ++ post))
  end.
  rewrite E. reflexivity.
Qed.

Lemma prettyFromFishRef_shape_witness :
  prettyFromFishRef
    (Some (fishRef "0080070D" "Fishing_Fish_Small_Axolotl02_PinkAxolotl" "fish" " [x]"))
  = trim (camelSpace (last (split "_" "Fishing_Fish_Small_Axolotl02_PinkAxolotl") [])).
Proof.
  apply prettyFromFishRef_shape. reflexivity.
Defined.

(** ** Trimming and camel-case spacing *)

Lemma trimStart_decomp (s : str) :
  exists a, s = a ++ trimStart s /\ forallb is_space a = true.
Proof.
  induction s as [|c s (a & E & Ha)]; [now exists []|].
  simpl. destruct (is_space c) eqn:Ec.
  - exists (c :: a). simpl. rewrite Ec, Ha. split; [now f_equal|reflexivity].
  - now exists [].
Qed.

Lemma trimStart_head (s : str) (c : ascii) (t : str) :
  trimStart s = c :: t -> is_space c = false.
Proof.
  induction s as [|d s IH]; [discriminate|].
  simpl. destruct (is_space d) eqn:Ed; [exact IH|].
  intros H. inversion H. now subst.
Qed.

Lemma rev_head (c : ascii) (t : str) : exists x, rev (c :: t) = last t c :: x.
Proof.
  assert (N : c :: t <> []) by discriminate.
  destruct (exists_last N) as (u & z & E).
  exists (rev u). rewrite E, rev_app_distr. simpl. f_equal.
  rewrite <- (last_cons c t c), E. now rewrite last_last.
Qed.

Lemma trimEnd_decomp (s : str) :
  exists b, s = trimEnd s ++ b /\ forallb is_space b = true.
Proof.
  unfold trimEnd. destruct (trimStart_decomp (rev s)) as (a & E & Ha).
  exists (rev a). split.
  - rewrite <- rev_app_distr, <- E. now rewrite rev_involutive.
  - rewrite forallb_forall in Ha |- *. intros x Hx. apply Ha. now apply in_rev.
Qed.

(** [trim] removes white space at both ends and nothing else. *)
Lemma trim_decomp (s : str) :
  exists a b,
    s = a ++ trim s ++ b /\ forallb is_space a = true /\ forallb is_space b = true.
Proof.
  destruct (trimStart_decomp s) as (a & E & Ha).
  destruct (trimEnd_decomp (trimStart s)) as (b & E' & Hb).
  exists a, b. unfold trim. rewrite <- E'. auto.
Qed.

Lemma trim_edges (s : str) (c : ascii) (t : str) :
  trim s = c :: t -> is_space c = false /\ is_space (last t c) = false.
Proof.
  unfold trim, trimEnd. intros H.
  destruct (trimStart_decomp (rev (trimStart s))) as (a & E & Ha).
  set (v := trimStart (rev (trimStart s))) in *.
  assert (Hv : v = rev (c :: t)) by (now rewrite <- H, rev_involutive).
  destruct (rev_head c t) as (x & Hx). split.
  - assert (U : trimStart s = (c :: t) ++ rev a).
    { rewrite <- (rev_involutive (trimStart s)), E, rev_app_distr, Hv.
      now rewrite rev_involutive. }
    apply (trimStart_head s U).
  - apply (@trimStart_head (rev (trimStart s)) (last t c) x).
    fold v. now rewrite Hv.
Qed.

Lemma trim_idem (s : str) : trim (trim s) = trim s.
Proof.
  destruct (trim s) as [|c t] eqn:E; [reflexivity|].
  apply trim_edges in E as [H1 H2]. now apply trim_id.
Qed.

Lemma in_trim (c : ascii) (s : str) : In c (trim s) -> In c s.
Proof.
  destruct (trim_decomp s) as (a & b & E & _). intros H. rewrite E.
  apply in_or_app. right. apply in_or_app. now left.
Qed.

Lemma no_hump_cons (c : ascii) (s : str) : no_hump (c :: s) = true -> no_hump s = true.
Proof.
  destruct s as [|d s]; [reflexivity|].
  simpl. intros H. now apply andb_true_iff in H as [_ H].
Qed.

Lemma no_hump_suffix (a b : str) : no_hump (a ++ b) = true -> no_hump b = true.
Proof.
  induction a as [|c a IH]; [trivial|]. intros H. apply IH.
  now apply (no_hump_cons c).
Qed.

Lemma no_hump_prefix (a b : str) : no_hump (a ++ b) = true -> no_hump a = true.
Proof.
  induction a as [|c a IH]; [reflexivity|]. intros H.
  destruct a as [|d a]; [reflexivity|].
  change (no_hump (c :: d :: a ++ b) = true) in H.
  simpl in H. apply andb_true_iff in H as [H1 H2].
  simpl. rewrite H1. simpl. apply IH. exact H2.
Qed.

Lemma no_hump_trim (s : str) : no_hump s = true -> no_hump (trim s) = true.
Proof.
  destruct (trim_decomp s) as (a & b & E & _). intros H. rewrite E in H.
  apply no_hump_suffix in H. now apply no_hump_prefix in H.
Qed.

Lemma is_upper_not_lower (c : ascii) : is_upper c = true -> is_lower c = false.
Proof. destruct c as [[] [] [] [] [] [] [] []]; vm_compute; congruence. Qed.

Lemma camelSpace_facts : forall (n : nat) (s : str),
  length s <= n ->
  unspaced (camelSpace s) = unspaced s
  /\ no_hump (camelSpace s) = true
  /\ length s <= length (camelSpace s) <= 2 * length s.
Proof.
  induction n as [|n IH]; intros s Hn.
  - destruct s; [simpl; repeat split; lia|simpl in Hn; lia].
  - destruct s as [|c1 [|c2 t]]; [simpl; repeat split; lia..|].
    simpl in Hn. rewrite camelSpace_eq.
    destruct (is_lower c1 && is_upper c2) eqn:E.
    + destruct (IH t ltac:(lia)) as (U & H & L).
      apply andb_true_iff in E as [E1 E2].
      repeat split.
      * unfold unspaced in *. simpl. now rewrite U.
      * change (no_hump (c1 :: " "%char :: c2 :: camelSpace t))
          with (negb (is_lower c1 && is_upper " ")
                && (negb (is_lower " " && is_upper c2) && no_hump (c2 :: camelSpace t))).
        rewrite andb_false_r. simpl negb. simpl andb.
        destruct (camelSpace t) as [|d u] eqn:Eu; [reflexivity|].
        simpl. rewrite (is_upper_not_lower _ E2). simpl. exact H.
      * simpl. lia.
      * simpl. lia.
    + destruct (IH (c2 :: t) ltac:(simpl; lia)) as (U & H & L).
      repeat split.
      * unfold unspaced in *.
        change (filter ?f (c1 :: ?l)) with (if f c1 then c1 :: filter f l else filter f l).
        now rewrite U.
      * destruct (camelSpace_head c2 t) as (u & Eu & _). rewrite Eu in *.
        simpl. rewrite E. simpl. exact H.
      * simpl in *. lia.
      * simpl in *. lia.
Qed.

(** X6.  Camel-case spacing inserts blanks and nothing else, leaves no
    lower-case letter directly before an upper-case one, and at most
    doubles the length. *)
Theorem camelSpace_spec (s : str) :
  unspaced (camelSpace s) = unspaced s
  /\ no_hump (camelSpace s) = true
  /\ length s <= length (camelSpace s) <= 2 * length s.
Proof. apply (@camelSpace_facts (length s) s). lia. Qed.

Lemma in_camelSpace (c : ascii) (s : str) :
  In c (camelSpace s) -> c = " "%char \/ In c s.
Proof.
  intros H. destruct (Ascii.eqb c " ") eqn:E.
  - left. now apply Ascii.eqb_eq.
  - right. assert (I : In c (unspaced (camelSpace s))).
    { apply filter_In. split; [exact H|now rewrite E]. }
    rewrite (proj1 (@camelSpace_facts (length s) s (le_n _))) in I.
    now apply filter_In in I.
Qed.

Lemma split_parts (sep : ascii) (s p : str) :
  In p (split sep s) -> ~ In sep p /\ forall c, In c p -> In c s.
Proof.
  revert p. induction s as [|c s IH]; intros p H.
  - destruct H as [<-|[]]. split; [intros []|trivial].
  - simpl in H. destruct (Ascii.eqb c sep) eqn:E.
    + destruct H as [<-|H]; [split; [intros []|intros ? []]|].
      destruct (IH p H) as [N I]. split; [exact N|]. intros x Hx. right. now apply I.
    + destruct (split sep s) as [|q qs] eqn:Es; [now apply split_nonempty in Es|].
      destruct H as [<-|H].
      * destruct (IH q (or_introl eq_refl)) as [N I]. split.
        -- intros [<-|Hq]; [now rewrite Ascii.eqb_refl in E|contradiction].
        -- intros x [<-|Hx]; [now left|right; now apply I].
      * destruct (IH p (or_intror H)) as [N I]. split; [exact N|].
        intros x Hx. right. now apply I.
Qed.

Lemma last_in (T : Type) (l : list T) (d : T) : l <> [] -> In (last l d) l.
Proof.
  induction l as [|x l IH]; [contradiction|]. intros _.
  destruct l as [|y l]; [now left|]. right. apply IH. discriminate.
Qed.

Lemma re_fish_group (ref : str) (m : match_result) :
  exec true re_fish ref = Some m ->
  forallb (fun c => negb (Ascii.eqb c ":")) (group 1 m) = true.
Proof.
  unfold exec. intros E. apply search_inv in E as (a & b & st & _ & _ & E & G & _).
  unfold re_fish in E.
  change (cats [Lit ":"%char; Group (Plus true cc_not_colon); lits ":FISH"; WordB])
    with (Cat (Lit ":"%char)
            (Cat (Group (Plus true cc_not_colon)) (Cat (lits ":FISH") (Cat WordB Empty))))
    in E.
  apply run_lit_inv in E as (c & l & _ & _ & E).
  apply run_group_plus_inv in E as (edid & l' & _ & _ & He & E).
  apply run_lits_cat_inv in E as (z & post & _ & _ & _ & E).
  simpl in E. destruct (xorb _ _); [|discriminate]. inversion E; subst st.
  unfold group. rewrite G. simpl.
  now rewrite <- (forallb_eq _ _ edid cls_not_colon).
Qed.

(** X7.  A display name never has an underscore or a colon, has no white
    space at its ends, and has no lower-case letter directly before an
    upper-case one, whatever the reference. *)
Theorem prettyFromFishRef_clean (lvloRef : option str) :
  ~ In "_"%char (prettyFromFishRef lvloRef)
  /\ ~ In ":"%char (prettyFromFishRef lvloRef)
  /\ trim (prettyFromFishRef lvloRef) = prettyFromFishRef lvloRef
  /\ no_hump (prettyFromFishRef lvloRef) = true.
Proof.
  unfold prettyFromFishRef.
  destruct (exec true re_fish (orEmpty lvloRef)) as [m|] eqn:E;
    [|repeat split; intros []].
  pose proof (re_fish_group _ E) as Hc.
  set (edid := group 1 m) in *.
  assert (Hl : In (lastPart (split "_" edid)) (split "_" edid))
    by (apply last_in, split_nonempty).
  destruct (split_parts _ _ _ Hl) as [N I].
  repeat split.
  - intros H. apply in_trim, in_camelSpace in H as [H|H]; [discriminate|contradiction].
  - intros H. apply in_trim, in_camelSpace in H as [H|H]; [discriminate|].
    apply I in H. rewrite forallb_forall in Hc. specialize (Hc _ H). discriminate.
  - apply trim_idem.
  - apply no_hump_trim. apply (@camelSpace_facts _ _ (le_n _)).
Qed.

Lemma unspaced_word (s : str) : forallb is_word s = true -> unspaced s = s.
Proof.
  induction s as [|c s IH]; intros H; [reflexivity|].
  simpl in H. apply andb_true_iff in H as [Hc H].
  unfold unspaced. simpl.
  destruct (Ascii.eqb c " ") eqn:E.
  - apply Ascii.eqb_eq in E. subst c. discriminate Hc.
  - simpl. f_equal. now apply IH.
Qed.

(** X8.  Every tag of a record is not empty, is made of word characters
    and blanks, has no white space at its ends, and has no lower-case
    letter directly before an upper-case one; without its blanks it is the
    identifier of a region token, LocRegion and that identifier followed by
    white space and [KYWD:, of a condition field of the record. *)
Theorem extractRegions_clean (r : row) (t : str) :
  In t (extractRegions r) ->
  t <> []
  /\ forallb (fun c => is_word c || Ascii.eqb c " ") t = true
  /\ trim t = t
  /\ no_hump t = true
  /\ exists k pre ident ws post,
       isCondKey k = true
       /\ Obj.get k r = Some (regionCond pre ident ws post)
       /\ regionMatchOk pre ident ws = true
       /\ unspaced t = ident.
Proof.
  intros H. apply extractRegions_field in H as (k & s & C & G & R & Ne).
  apply regionOfCond_inv in R as (pre & ident & ws & post & -> & Ok & ->).
  pose proof Ok as Ok'.
  unfold regionMatchOk in Ok'. rewrite !andb_true_iff in Ok'.
  destruct Ok' as [[[[_ _] Hw] _] _].
  split; [exact Ne|]. split; [|split; [|split]].
  - apply forallb_forall. intros c Hc. apply in_camelSpace in Hc as [->|Hc]; [reflexivity|].
    rewrite forallb_forall in Hw. now rewrite (Hw c Hc).
  - rewrite <- (prettyFromLocRegion_token ident Hw). unfold prettyFromLocRegion.
    apply trim_idem.
  - apply (@camelSpace_facts _ _ (le_n _)).
  - exists k, pre, ident, ws, post. repeat split; try assumption.
    rewrite (proj1 (@camelSpace_facts _ _ (le_n _))). now apply unspaced_word.
Qed.

Lemma extractRegions_clean_witness :
  "Forest Floodlands" <> []
  /\ forallb (fun c => is_word c || Ascii.eqb c " ") "Forest Floodlands" = true
  /\ trim "Forest Floodlands" = "Forest Floodlands"
  /\ no_hump "Forest Floodlands" = true
  /\ exists k pre ident ws post,
       isCondKey k = true
       /\ Obj.get k (nth 0 Sample.rows []) = Some (regionCond pre ident ws post)
       /\ regionMatchOk pre ident ws = true
       /\ unspaced "Forest Floodlands" = ident.
Proof.
  apply (@extractRegions_clean (nth 0 Sample.rows []) "Forest Floodlands").
  vm_compute. auto.
Defined.

(** ** The records of parseTSV *)

Lemma fillRow_app (a b : list str) : forall (parts : list str) (r : row),
  fillRow (a ++ b) parts r = fillRow b (skipn (length a) parts) (fillRow a parts r).
Proof.
  induction a as [|h a IH]; intros parts r; [reflexivity|].
  simpl. rewrite IH. destruct parts; simpl; [now rewrite skipn_nil|reflexivity].
Qed.

Lemma fillRow_get_other (h : str) : forall (header parts : list str) (r : row),
  ~ In h header -> Obj.get h (fillRow header parts r) = Obj.get h r.
Proof.
  induction header as [|x header IH]; intros parts r N; [reflexivity|].
  simpl. rewrite IH by (intros I; apply N; now right).
  apply get_set_other. intros E. apply N. now left.
Qed.

Lemma hd_skipn (n : nat) : forall parts : list str, hd [] (skipn n parts) = nth n parts [].
Proof.
  induction n as [|n IH]; intros [|p parts]; try reflexivity. simpl. apply IH.
Qed.

Lemma rowOfLine_get (a b : list str) (h line : str) :
  ~ In h b -> h <> "__proto__" ->
  Obj.get h (rowOfLine (a ++ h :: b) line)
  = Some (trim (nth (length a) (split TAB line) [])).
Proof.
  intros N P. unfold rowOfLine. rewrite fillRow_app. simpl.
  rewrite fillRow_get_other by exact N.
  rewrite get_set_same by exact P. now rewrite hd_skipn.
Qed.

(** X9.  The record of the j-th data line gives, for a header name, the
    trimmed value at the position of that name in the header (of its last
    occurrence, when the header repeats it), and the empty text when the
    line has no value there. *)
Theorem parseTSV_field (tsvText : str) (a b : list str) (h line : str) (j : nat) :
  headerOf tsvText = a ++ h :: b ->
  ~ In h b -> h <> "__proto__" ->
  nth_error (tl (tsvLines tsvText)) j = Some line ->
  exists r,
    nth_error (parseTSV tsvText) j = Some r
    /\ Obj.get h r = Some (trim (nth (length a) (split TAB line) [])).
Proof.
  unfold headerOf, parseTSV. intros H N P L.
  destruct (tsvLines tsvText) as [|first others]; [destruct j; discriminate|].
  simpl in H, L. exists (rowOfLine (a ++ h :: b) line). split.
  - rewrite H. now apply map_nth_error.
  - now apply rowOfLine_get.
Qed.

Lemma parseTSV_field_witness :
  exists r,
    nth_error (parseTSV ("A" ++ [TAB] ++ " B " ++ [TAB] ++ "C" ++ [CR; LF]
                         ++ "x" ++ [TAB] ++ " y" ++ [LF])) 0 = Some r
    /\ Obj.get "C" r = Some (trim (nth (length ["A"; "B"]) (split TAB ("x" ++ [TAB] ++ " y")) [])).
Proof.
  apply (@parseTSV_field _ ["A"; "B"] [] "C" ("x" ++ [TAB] ++ " y") 0).
  - reflexivity.
  - intros [].
  - discriminate.
  - reflexivity.
Defined.

Lemma get_set_cases (V : Type) (o : Obj.t V) (k h : str) (v x : V) :
  Obj.get k (Obj.set h v o) = Some x -> x = v \/ Obj.get k o = Some x.
Proof.
  intros H. destruct (str_eqb k h) eqn:E.
  - apply str_eqb_eq in E. subst k.
    destruct (str_eqb h "__proto__") eqn:P.
    + right. unfold Obj.set in H. now rewrite P in H.
    + apply str_eqb_neq in P. rewrite get_set_same in H by exact P.
      left. congruence.
  - apply str_eqb_neq in E. rewrite get_set_other in H by exact E. now right.
Qed.

Lemma fillRow_trimmed : forall (header parts : list str) (r : row),
  (forall k v, Obj.get k r = Some v -> trim v = v) ->
  forall k v, Obj.get k (fillRow header parts r) = Some v -> trim v = v.
Proof.
  induction header as [|h header IH]; intros parts r Hr k v H; [now apply (Hr k)|].
  simpl in H. apply IH in H; [exact H|].
  intros k' v' G. apply get_set_cases in G as [->|G]; [apply trim_idem|now apply (Hr k')].
Qed.

(** X10.  In every record that [parseTSV] returns, no value and no field
    name has white space at its ends. *)
Theorem parseTSV_trimmed (tsvText : str) (r : row) (k v : str) :
  In r (parseTSV tsvText) ->
  Obj.get k r = Some v ->
  trim v = v /\ trim k = k.
Proof.
  intros H G. apply parseTSV_rows in H as (line & _ & ->). split.
  - unfold rowOfLine in G.
    apply fillRow_trimmed in G; [exact G|]. intros ? ? D. discriminate D.
  - apply get_names in G. unfold rowOfLine in G.
    apply fillRow_names in G as [[]|[K _]]. unfold headerOf in K.
    apply in_map_iff in K as (x & <- & _). apply trim_idem.
Qed.

Lemma parseTSV_trimmed_witness :
  trim "y" = "y" /\ trim "B" = "B".
Proof.
  apply (@parseTSV_trimmed
           ("A" ++ [TAB] ++ " B " ++ [CR; LF] ++ "x " ++ [TAB] ++ "  y " ++ [LF])
           [("A", "x"); ("B", "y")] "B" "y").
  - vm_compute. auto.
  - reflexivity.
Defined.

(** ** Line breaks and blank texts *)

Lemma replace_crlf_other (c : ascii) (t : str) :
  Ascii.eqb c CR = false -> replace_crlf (c :: t) = c :: replace_crlf t.
Proof. intros H. destruct t as [|d t]; [reflexivity|]. simpl. now rewrite H. Qed.

Lemma replace_crlf_cr (t : str) :
  hd_error t <> Some LF -> replace_crlf (CR :: t) = CR :: replace_crlf t.
Proof.
  destruct t as [|d t]; [reflexivity|]. intros H. simpl.
  destruct (Ascii.eqb d LF) eqn:E; [|reflexivity].
  apply Ascii.eqb_eq in E. subst d. now contradiction H.
Qed.

Lemma plainLine_spec (l : str) (c : ascii) :
  plainLine l = true -> In c l -> Ascii.eqb c CR = false /\ Ascii.eqb c LF = false.
Proof.
  unfold plainLine. rewrite forallb_forall. intros H I. specialize (H c I).
  apply andb_true_iff in H as [H1 H2].
  now apply negb_true_iff in H1; apply negb_true_iff in H2.
Qed.

Lemma plainLine_cons (c : ascii) (l : str) :
  plainLine (c :: l) = true ->
  Ascii.eqb c CR = false /\ Ascii.eqb c LF = false /\ plainLine l = true.
Proof.
  unfold plainLine. simpl. rewrite !andb_true_iff, !negb_true_iff. tauto.
Qed.

Lemma replace_crlf_plain (l t : str) :
  plainLine l = true -> replace_crlf (l ++ t) = l ++ replace_crlf t.
Proof.
  induction l as [|c l IH]; intros H; [reflexivity|].
  apply plainLine_cons in H as (H1 & _ & H).
  change ((c :: l) ++ t) with (c :: (l ++ t)).
  rewrite replace_crlf_other by exact H1. simpl. now rewrite IH.
Qed.

Lemma replace_cr_plain (l t : str) :
  plainLine l = true -> replace_cr (l ++ t) = l ++ replace_cr t.
Proof.
  induction l as [|c l IH]; intros H; [reflexivity|].
  apply plainLine_cons in H as (H1 & _ & H).
  unfold replace_cr in *. simpl. now rewrite H1, IH.
Qed.

Lemma split_plain (l : str) : plainLine l = true -> split LF l = [l].
Proof.
  induction l as [|c l IH]; intros H; [reflexivity|].
  apply plainLine_cons in H as (_ & H2 & H).
  rewrite (@split_cons_other LF c l H2), IH by exact H. reflexivity.
Qed.

Lemma joinLines_cons (sep l : str) (x : str) (ls : list str) :
  joinLines sep (l :: x :: ls) = l ++ sep ++ joinLines sep (x :: ls).
Proof. reflexivity. Qed.

Lemma normal_lf (ls : list str) :
  forallb plainLine ls = true ->
  replace_cr (replace_crlf (joinLines [LF] ls)) = joinLines [LF] ls.
Proof.
  induction ls as [|l ls IH]; intros H; [reflexivity|].
  simpl in H. apply andb_true_iff in H as [Hl H].
  destruct ls as [|x ls].
  - simpl. rewrite <- (app_nil_r l).
    now rewrite replace_crlf_plain, replace_cr_plain by exact Hl.
  - rewrite joinLines_cons.
    rewrite replace_crlf_plain by exact Hl.
    change ([LF] ++ joinLines [LF] (x :: ls)) with (LF :: joinLines [LF] (x :: ls)).
    rewrite replace_crlf_other by reflexivity.
    rewrite replace_cr_plain by exact Hl.
    change (replace_cr (LF :: ?t)) with (LF :: replace_cr t).
    now rewrite IH.
Qed.

Lemma normal_crlf (ls : list str) :
  forallb plainLine ls = true ->
  replace_cr (replace_crlf (joinLines [CR; LF] ls)) = joinLines [LF] ls.
Proof.
  induction ls as [|l ls IH]; intros H; [reflexivity|].
  simpl in H. apply andb_true_iff in H as [Hl H].
  destruct ls as [|x ls].
  - simpl. rewrite <- (app_nil_r l).
    now rewrite replace_crlf_plain, replace_cr_plain by exact Hl.
  - rewrite !joinLines_cons.
    rewrite replace_crlf_plain by exact Hl.
    change ([CR; LF] ++ joinLines [CR; LF] (x :: ls))
      with (CR :: LF :: joinLines [CR; LF] (x :: ls)).
    change (replace_crlf (CR :: LF :: ?t)) with (LF :: replace_crlf t).
    rewrite replace_cr_plain by exact Hl.
    change (replace_cr (LF :: ?t)) with (LF :: replace_cr t).
    now rewrite IH.
Qed.

Lemma joinLines_cr_head (ls : list str) :
  forallb plainLine ls = true -> hd_error (joinLines [CR] ls) <> Some LF.
Proof.
  destruct ls as [|l ls]; [discriminate|]. intros H.
  simpl in H. apply andb_true_iff in H as [Hl _].
  destruct l as [|c l].
  - destruct ls; simpl; discriminate.
  - apply plainLine_cons in Hl as (_ & H2 & _).
    assert (E : hd_error (joinLines [CR] ((c :: l) :: ls)) = Some c)
      by (destruct ls; reflexivity).
    intros E'. assert (X : Some c = Some LF) by exact (eq_trans (eq_sym E) E').
    inversion X. subst c. discriminate.
Qed.

Lemma normal_cr (ls : list str) :
  forallb plainLine ls = true ->
  replace_cr (replace_crlf (joinLines [CR] ls)) = joinLines [LF] ls.
Proof.
  induction ls as [|l ls IH]; intros H; [reflexivity|].
  pose proof H as H0. simpl in H. apply andb_true_iff in H as [Hl H].
  destruct ls as [|x ls].
  - simpl. rewrite <- (app_nil_r l).
    now rewrite replace_crlf_plain, replace_cr_plain by exact Hl.
  - rewrite !joinLines_cons.
    rewrite replace_crlf_plain by exact Hl.
    change ([CR] ++ joinLines [CR] (x :: ls)) with (CR :: joinLines [CR] (x :: ls)).
    rewrite replace_crlf_cr by (now apply joinLines_cr_head).
    rewrite replace_cr_plain by exact Hl.
    change (replace_cr (CR :: ?t)) with (LF :: replace_cr t).
    now rewrite IH.
Qed.

Lemma split_joinLines (ls : list str) :
  forallb plainLine ls = true -> ls <> [] -> split LF (joinLines [LF] ls) = ls.
Proof.
  induction ls as [|l ls IH]; intros H N; [contradiction|].
  simpl in H. apply andb_true_iff in H as [Hl H].
  destruct ls as [|x ls].
  - simpl. now apply split_plain.
  - rewrite joinLines_cons.
    change ([LF] ++ joinLines [LF] (x :: ls)) with (LF :: joinLines [LF] (x :: ls)).
    rewrite split_app_sep, split_plain by exact Hl.
    rewrite IH by (auto; discriminate). reflexivity.
Qed.

Lemma tsvLines_join (sep : str) (ls : list str) :
  replace_cr (replace_crlf (joinLines sep ls)) = joinLines [LF] ls ->
  forallb plainLine ls = true ->
  tsvLines (joinLines sep ls) = filter nonblank ls.
Proof.
  intros E H. unfold tsvLines. rewrite E.
  destruct ls as [|l ls]; [reflexivity|].
  rewrite split_joinLines by (auto; discriminate). reflexivity.
Qed.

(** X11.  Lines without line breaks in them, put together with CR LF, with
    CR or with LF, are read back alike: the lines that are not blank, in
    their order; so the three kinds of line break give the same records. *)
Theorem parseTSV_line_breaks (ls : list str) :
  forallb plainLine ls = true ->
  tsvLines (joinLines [CR; LF] ls) = filter nonblank ls
  /\ tsvLines (joinLines [CR] ls) = filter nonblank ls
  /\ tsvLines (joinLines [LF] ls) = filter nonblank ls
  /\ parseTSV (joinLines [CR; LF] ls) = parseTSV (joinLines [LF] ls)
  /\ parseTSV (joinLines [CR] ls) = parseTSV (joinLines [LF] ls).
Proof.
  intros H.
  pose proof (tsvLines_join [CR; LF] ls (normal_crlf ls H) H) as E1.
  pose proof (tsvLines_join [CR] ls (normal_cr ls H) H) as E2.
  pose proof (tsvLines_join [LF] ls (normal_lf ls H) H) as E3.
  repeat split; try assumption; unfold parseTSV; now rewrite ?E1, ?E2, E3.
Qed.

Lemma parseTSV_line_breaks_witness :
  tsvLines (joinLines [CR; LF] ["A" ++ [TAB] ++ "B"; ""; "x" ++ [TAB] ++ "y"; "  "])
  = filter nonblank ["A" ++ [TAB] ++ "B"; ""; "x" ++ [TAB] ++ "y"; "  "]
  /\ parseTSV (joinLines [CR] ["A" ++ [TAB] ++ "B"; ""; "x" ++ [TAB] ++ "y"; "  "])
     = parseTSV (joinLines [LF] ["A" ++ [TAB] ++ "B"; ""; "x" ++ [TAB] ++ "y"; "  "]).
Proof.
  split.
  - apply (parseTSV_line_breaks ["A" ++ [TAB] ++ "B"; ""; "x" ++ [TAB] ++ "y"; "  "]).
    reflexivity.
  - apply (parseTSV_line_breaks ["A" ++ [TAB] ++ "B"; ""; "x" ++ [TAB] ++ "y"; "  "]).
    reflexivity.
Defined.

Lemma replace_crlf_eq (c1 c2 : ascii) (t : str) :
  replace_crlf (c1 :: c2 :: t) =
  if Ascii.eqb c1 CR && Ascii.eqb c2 LF then LF :: replace_crlf t
  else c1 :: replace_crlf (c2 :: t).
Proof. reflexivity. Qed.

Lemma replace_crlf_spaces : forall (n : nat) (t : str),
  length t <= n -> forallb is_space t = true -> forallb is_space (replace_crlf t) = true.
Proof.
  induction n as [|n IH]; intros t L H.
  - destruct t; [reflexivity|simpl in L; lia].
  - destruct t as [|c1 [|c2 t]]; [reflexivity|exact H|].
    simpl in L, H. apply andb_true_iff in H as [H1 H]. apply andb_true_iff in H as [H2 H].
    rewrite replace_crlf_eq. destruct (Ascii.eqb c1 CR && Ascii.eqb c2 LF).
    + change (forallb is_space (replace_crlf t) = true).
      apply IH; [lia|exact H].
    + change (is_space c1 && forallb is_space (replace_crlf (c2 :: t)) = true).
      rewrite H1. change (forallb is_space (replace_crlf (c2 :: t)) = true).
      apply IH; [simpl; lia|]. simpl. now rewrite H2, H.
Qed.

Lemma trim_spaces (l : str) : forallb is_space l = true -> trim l = [].
Proof.
  intros H. unfold trim.
  assert (E : trimStart l = []).
  { induction l as [|c l IH]; [reflexivity|].
    simpl in H. apply andb_true_iff in H as [Hc H]. simpl. rewrite Hc. now apply IH. }
  rewrite E. reflexivity.
Qed.

(** X12.  A text of white space only (the empty text included) has no
    header and gives no record. *)
Theorem parseTSV_blank (tsvText : str) :
  forallb is_space tsvText = true ->
  tsvLines tsvText = [] /\ parseTSV tsvText = [].
Proof.
  intros H.
  assert (E : tsvLines tsvText = []).
  { unfold tsvLines.
    assert (S : forallb is_space (replace_cr (replace_crlf tsvText)) = true).
    { pose proof (@replace_crlf_spaces (length tsvText) tsvText (le_n _) H) as S.
      unfold replace_cr. rewrite forallb_forall in S |- *.
      intros c Hc. apply in_map_iff in Hc as (d & <- & Hd).
      destruct (Ascii.eqb d CR); [reflexivity|now apply S]. }
    set (t := replace_cr (replace_crlf tsvText)) in *.
    assert (F : forall p, In p (split LF t) -> nonblank p = false).
    { intros p Hp. unfold nonblank. rewrite trim_spaces; [reflexivity|].
      apply forallb_forall. intros c Hc.
      rewrite forallb_forall in S. apply S.
      now apply (proj2 (split_parts LF t p Hp)). }
    induction (split LF t) as [|p ps IH]; [reflexivity|].
    simpl. rewrite (F p (or_introl eq_refl)). apply IH.
    intros q Hq. apply F. now right. }
  split; [exact E|]. unfold parseTSV. now rewrite E.
Qed.

Lemma parseTSV_blank_witness :
  tsvLines (" " ++ [CR; LF; TAB; LF] ++ "  ") = []
  /\ parseTSV (" " ++ [CR; LF; TAB; LF] ++ "  ") = [].
Proof.
  apply parseTSV_blank. reflexivity.
Defined.

(** ** The order of the scan over the condition fields *)

Lemma is_digit_to_upper (c : ascii) : is_digit (to_upper c) = is_digit c.
Proof. destruct c as [[] [] [] [] [] [] [] []]; reflexivity. Qed.

Lemma isCondKey_not_index (k : str) : isCondKey k = true -> Obj.is_index k = false.
Proof.
  intros H. apply isCondKey_inv in H as (w & d & -> & Hw & _).
  apply same_ci_spec in Hw as [L M].
  destruct w as [|c w]; [discriminate|].
  simpl in M. apply andb_true_iff in M as [Mc _].
  assert (D : is_digit c = false).
  { unfold lit_match, canon in Mc. apply Ascii.eqb_eq in Mc.
    rewrite <- is_digit_to_upper, <- Mc. reflexivity. }
  unfold Obj.is_index, Obj.array_index. simpl. now rewrite D.
Qed.

Lemma filter_none (T : Type) (f : T -> bool) (l : list T) :
  (forall x, In x l -> f x = false) -> filter f l = [].
Proof.
  induction l as [|x l IH]; intros H; [reflexivity|].
  simpl. rewrite (H x (or_introl eq_refl)). apply IH. intros y Hy. apply H. now right.
Qed.

Lemma filter_filter_sub (T : Type) (f g : T -> bool) (l : list T) :
  (forall x, f x = true -> g x = true) -> filter f (filter g l) = filter f l.
Proof.
  intros H. induction l as [|x l IH]; [reflexivity|].
  simpl. destruct (g x) eqn:G; simpl; rewrite IH; [reflexivity|].
  destruct (f x) eqn:F; [|reflexivity]. apply H in F. congruence.
Qed.

Lemma cond_keys_order (V : Type) (o : Obj.t V) :
  filter isCondKey (Obj.keys o) = filter isCondKey (Obj.names o).
Proof.
  unfold Obj.keys. rewrite filter_app.
  rewrite filter_none, filter_filter_sub; [reflexivity| |].
  - intros k H. apply isCondKey_not_index in H. now rewrite H.
  - intros k Hk. apply in_sort_indices, filter_In in Hk as [_ Hk].
    destruct (isCondKey k) eqn:C; [|reflexivity].
    apply isCondKey_not_index in C. congruence.
Qed.

Lemma fillRow_names_list : forall (header parts : list str) (r : row),
  NoDup (Obj.names r ++ header) -> ~ In "__proto__" header ->
  Obj.names (fillRow header parts r) = Obj.names r ++ header.
Proof.
  induction header as [|h header IH]; intros parts r D P; [now rewrite app_nil_r|].
  simpl.
  assert (Nh : ~ In h (Obj.names r)).
  { intros I. apply NoDup_remove_2 in D. apply D. apply in_or_app. now left. }
  assert (E : Obj.names (Obj.set h (trim (hd [] parts)) r) = Obj.names r ++ [h]).
  { unfold Obj.set.
    destruct (str_eqb h "__proto__") eqn:Ep.
    - apply str_eqb_eq in Ep. exfalso. apply P. now left.
    - destruct (Obj.has h r) eqn:Eh; [apply has_names in Eh; contradiction|].
      unfold Obj.names. now rewrite map_app. }
  rewrite IH.
  - rewrite E, <- app_assoc. reflexivity.
  - rewrite E, <- app_assoc. exact D.
  - intros I. apply P. now right.
Qed.

Lemma filter_all (T : Type) (f : T -> bool) (l : list T) :
  forallb f l = true -> filter f l = l.
Proof.
  induction l as [|x l IH]; intros H; [reflexivity|].
  simpl in H. apply andb_true_iff in H as [Hx H].
  simpl. rewrite Hx. f_equal. now apply IH.
Qed.

(** X13.  For a header of distinct names, none of them __proto__,
    [Object.keys] of a record lists the header names that are array indices
    in ascending order and then the other header names in the order of the
    columns.  So the condition fields are scanned in the order of their
    columns, also when other columns have numbers as names; and when no
    header name is an array index, the keys are the header names in column
    order. *)
Theorem condition_fields_in_column_order (header : list str) (line : str) :
  NoDup header -> ~ In "__proto__" header ->
  Obj.keys (rowOfLine header line)
  = Obj.sort_indices (filter Obj.is_index header)
    ++ filter (fun k => negb (Obj.is_index k)) header
  /\ filter isCondKey (Obj.keys (rowOfLine header line)) = filter isCondKey header
  /\ (forallb (fun k => negb (Obj.is_index k)) header = true ->
      Obj.keys (rowOfLine header line) = header).
Proof.
  intros D P.
  assert (E : Obj.names (rowOfLine header line) = header)
    by (unfold rowOfLine; now rewrite fillRow_names_list).
  split; [|split].
  - unfold Obj.keys. now rewrite E.
  - now rewrite cond_keys_order, E.
  - intros H. unfold Obj.keys. rewrite E.
    rewrite (filter_all _ _ H), filter_none; [reflexivity|].
    intros k Hk. rewrite forallb_forall in H. apply negb_true_iff. now apply H.
Qed.

Lemma condition_fields_in_column_order_witness :
  Obj.keys (rowOfLine ["Cond2"; "7"; "LVLI_EDID"; "Cond1"; "3"]
              ("a" ++ [TAB] ++ "b" ++ [TAB] ++ "c" ++ [TAB] ++ "d" ++ [TAB] ++ "e"))
  = Obj.sort_indices (filter Obj.is_index ["Cond2"; "7"; "LVLI_EDID"; "Cond1"; "3"])
    ++ filter (fun k => negb (Obj.is_index k)) ["Cond2"; "7"; "LVLI_EDID"; "Cond1"; "3"].
Proof.
  apply (@condition_fields_in_column_order ["Cond2"; "7"; "LVLI_EDID"; "Cond1"; "3"]
           ("a" ++ [TAB] ++ "b" ++ [TAB] ++ "c" ++ [TAB] ++ "d" ++ [TAB] ++ "e")).
  - repeat constructor; simpl; intuition discriminate.
  - simpl. intuition discriminate.
Defined.

(** ** The listing and the choice among files of the same age *)

Lemma child_some_in (name : str) (it : fsnode) (items : list (str * fsnode)) :
  child name items = Some it -> In (name, it) items.
Proof.
  induction items as [|[m x] items IH]; [discriminate|].
  simpl. destruct (str_eqb name m) eqn:E.
  - apply str_eqb_eq in E. intros H. inversion H. subst. now left.
  - intros H. right. now apply IH.
Qed.

Lemma listFilesRecursive_item (dir : path) (items : list (str * fsnode)) (name : str)
    (it : fsnode) (p : path) :
  In (name, it) items ->
  match it with
  | FDir _ => In p (listFilesRecursive (join dir name) it)
  | FFile _ _ => p = join dir name
  end ->
  In p (listFilesRecursive dir (FDir items)).
Proof.
  simpl. induction items as [|[n x] items IH]; intros I H; [destruct I|].
  apply in_or_app. destruct I as [I|I].
  - inversion I. subst n x. left. destruct it; [left; now symmetry|exact H].
  - right. now apply IH.
Qed.

Lemma listFilesRecursive_complete (d : fsnode) : forall (dir q : path) (t : Z) (c : str),
  lookup d q = Some (FFile t c) ->
  match d with FDir _ => True | FFile _ _ => False end ->
  In (dir ++ q) (listFilesRecursive dir d).
Proof.
  induction d as [t0 c0|items IH] using fsnode_tree_ind; intros dir q t c L D;
    [destruct D|].
  destruct q as [|name q]; [discriminate|].
  simpl in L. destruct (child name items) as [it|] eqn:C; [|discriminate].
  apply child_some_in in C.
  apply (listFilesRecursive_item dir items name it _ C).
  destruct it as [t1 c1|sub].
  - destruct q; [reflexivity|discriminate].
  - rewrite Forall_forall in IH.
    replace (dir ++ name :: q) with (join dir name ++ q)
      by (unfold join; now rewrite <- app_assoc).
    apply (IH (name, FDir sub) C (join dir name) q t c L I).
Qed.

(** X14.  In a tree whose directories hold no name twice, the listing of a
    directory has exactly the paths of the regular files below it, at any
    depth: no directory is listed and no file is left out. *)
Theorem listFilesRecursive_spec (dir p : path) (items : list (str * fsnode)) :
  distinct_names (FDir items) ->
  (In p (listFilesRecursive dir (FDir items))
   <-> exists q t c, p = dir ++ q /\ lookup (FDir items) q = Some (FFile t c)).
Proof.
  intros D. split.
  - now apply listFilesRecursive_files.
  - intros (q & t & c & -> & L).
    now apply (@listFilesRecursive_complete (FDir items) dir q t c).
Qed.

Lemma listFilesRecursive_spec_witness :
  In ["tsv"; "2026-02"; "notes.txt"] (listFilesRecursive ["tsv"] (FDir sampleTsvItems))
  <-> exists q t c,
        ["tsv"; "2026-02"; "notes.txt"] = ["tsv"] ++ q
        /\ lookup (FDir sampleTsvItems) q = Some (FFile t c).
Proof.
  apply listFilesRecursive_spec.
  simpl. repeat split; repeat constructor; simpl; intuition discriminate.
Defined.

Section SortTies.
Variable T : Type.
Variable key : T -> Z.

(** The first element of the sorted list is, in the list, the first one
    with the greatest key. *)
Lemma sort_head_first (l : list T) :
  match sort (fun a b => (key b - key a)%Z) l with
  | [] => l = []
  | x :: _ =>
      exists a b,
        l = a ++ x :: b
        /\ (forall y, In y a -> (key y < key x)%Z)
        /\ (forall y, In y b -> (key y <= key x)%Z)
  end.
Proof.
  induction l as [|a0 l IH]; [reflexivity|].
  change (sort (fun a b => (key b - key a)%Z) (a0 :: l))
    with (sort_insert (fun a b => (key b - key a)%Z) a0
            (sort (fun a b => (key b - key a)%Z) l)).
  destruct (sort (fun a b => (key b - key a)%Z) l) as [|z zs] eqn:E.
  - subst l. simpl. exists [], []. repeat split; intros y [].
  - destruct IH as (a & b & -> & Ha & Hb). simpl.
    destruct (Z.leb_spec (key z - key a0) 0).
    + exists [], (a ++ z :: b). repeat split; [intros y []|].
      intros y Hy. apply in_app_or in Hy as [Hy|[<-|Hy]].
      * specialize (Ha y Hy). lia.
      * lia.
      * specialize (Hb y Hy). lia.
    + exists (a0 :: a), b. repeat split; [|exact Hb].
      intros y [<-|Hy]; [lia|now apply Ha].
Qed.
End SortTies.

(** X15.  Among candidates of the same, greatest modification time the
    selection returns the one that the listing has first: every candidate
    listed before the selected file is strictly older, none is newer. *)
Theorem pickLatest_first_of_newest (repoRoot : fsnode) (items : list (str * fsnode))
    (newest : path) :
  lookup repoRoot (join [] "tsv") = Some (FDir items) ->
  pickLatestLvliEntriesTsv repoRoot = Ok newest ->
  exists before after,
    candidates items = before ++ newest :: after
    /\ (forall p, In p before -> (mtimeMs repoRoot p < mtimeMs repoRoot newest)%Z)
    /\ (forall p, In p after -> (mtimeMs repoRoot p <= mtimeMs repoRoot newest)%Z).
Proof.
  intros L H. unfold pickLatestLvliEntriesTsv in H. rewrite L in H.
  pose proof (sort_head_first (mtimeMs repoRoot) (candidates items)) as S.
  fold (candidates items) in H.
  destruct (sort _ (candidates items)) as [|x xs]; [discriminate|].
  inversion H. subst x. exact S.
Qed.

Lemma pickLatest_first_of_newest_witness :
  exists before after,
    candidates
      [("LVLI_Export_Jan_2026_LVLI_Entries.tsv", FFile 30 "a");
       ("LVLI_Export_Feb_2026_LVLI_Entries.tsv", FFile 70 "b");
       ("LVLI_Export_Mar_2026_LVLI_Entries.tsv", FFile 70 "c")]
    = before ++ ["tsv"; "LVLI_Export_Feb_2026_LVLI_Entries.tsv"] :: after
    /\ (forall p, In p before ->
         (mtimeMs (FDir [("tsv",
             FDir [("LVLI_Export_Jan_2026_LVLI_Entries.tsv", FFile 30 "a");
                   ("LVLI_Export_Feb_2026_LVLI_Entries.tsv", FFile 70 "b");
                   ("LVLI_Export_Mar_2026_LVLI_Entries.tsv", FFile 70 "c")])]) p
          < mtimeMs (FDir [("tsv",
             FDir [("LVLI_Export_Jan_2026_LVLI_Entries.tsv", FFile 30 "a");
                   ("LVLI_Export_Feb_2026_LVLI_Entries.tsv", FFile 70 "b");
                   ("LVLI_Export_Mar_2026_LVLI_Entries.tsv", FFile 70 "c")])])
              ["tsv"; "LVLI_Export_Feb_2026_LVLI_Entries.tsv"])%Z)
    /\ (forall p, In p after ->
         (mtimeMs (FDir [("tsv",
             FDir [("LVLI_Export_Jan_2026_LVLI_Entries.tsv", FFile 30 "a");
                   ("LVLI_Export_Feb_2026_LVLI_Entries.tsv", FFile 70 "b");
                   ("LVLI_Export_Mar_2026_LVLI_Entries.tsv", FFile 70 "c")])]) p
          <= mtimeMs (FDir [("tsv",
             FDir [("LVLI_Export_Jan_2026_LVLI_Entries.tsv", FFile 30 "a");
                   ("LVLI_Export_Feb_2026_LVLI_Entries.tsv", FFile 70 "b");
                   ("LVLI_Export_Mar_2026_LVLI_Entries.tsv", FFile 70 "c")])])
              ["tsv"; "LVLI_Export_Feb_2026_LVLI_Entries.tsv"])%Z).
Proof.
  apply (@pickLatest_first_of_newest
           (FDir [("tsv",
             FDir [("LVLI_Export_Jan_2026_LVLI_Entries.tsv", FFile 30 "a");
                   ("LVLI_Export_Feb_2026_LVLI_Entries.tsv", FFile 70 "b");
                   ("LVLI_Export_Mar_2026_LVLI_Entries.tsv", FFile 70 "c")])])).
  - reflexivity.
  - reflexivity.
Defined.

(** ** The table as a whole *)

Lemma perm_insert_index (k : str) (ks : list str) :
  Permutation (Obj.insert_index k ks) (k :: ks).
Proof.
  induction ks as [|x ks IH]; simpl; [reflexivity|].
  destruct (Obj.index_value k <=? Obj.index_value x)%N; [reflexivity|].
  rewrite IH. apply perm_swap.
Qed.

Lemma perm_sort_indices (ks : list str) : Permutation (Obj.sort_indices ks) ks.
Proof.
  induction ks as [|x ks IH]; simpl; [reflexivity|].
  rewrite perm_insert_index. now apply perm_skip.
Qed.

Lemma perm_filter_both (T : Type) (f : T -> bool) (l : list T) :
  Permutation (filter f l ++ filter (fun x => negb (f x)) l) l.
Proof.
  induction l as [|x l IH]; simpl; [reflexivity|].
  destruct (f x); simpl.
  - now apply perm_skip.
  - rewrite <- Permutation_middle. now apply perm_skip.
Qed.

(** [Object.keys] lists every own property once. *)
Lemma keys_perm (V : Type) (o : Obj.t V) : Permutation (Obj.keys o) (Obj.names o).
Proof.
  unfold Obj.keys. rewrite perm_sort_indices. apply perm_filter_both.
Qed.

Lemma names_set_NoDup (V : Type) (o : Obj.t V) (k : str) (v : V) :
  NoDup (Obj.names o) -> NoDup (Obj.names (Obj.set k v o)).
Proof.
  intros D. unfold Obj.set. destruct (str_eqb k "__proto__"); [exact D|].
  destruct (Obj.has k o) eqn:E.
  - now rewrite names_update.
  - unfold Obj.names in *. rewrite map_app. simpl.
    apply NoDup_app; [exact D|repeat constructor; intros []|].
    intros x Hx [Ek|[]]. subst x.
    assert (Obj.has k o = true) by (now apply has_names).
    congruence.
Qed.

Lemma fillMonths_NoDup : forall (rows : list row) (months : Obj.t entry),
  NoDup (Obj.names months) -> NoDup (Obj.names (fillMonths rows months)).
Proof.
  induction rows as [|r rows IH]; intros months D; [exact D|].
  rewrite fillMonths_cons. apply IH.
  destruct (extractMonthIndex r) as [n|]; [|exact D].
  destruct (validMonth (Some n)); [now apply names_set_NoDup|exact D].
Qed.

Lemma monthKeys_NoDup : NoDup monthKeys.
Proof.
  apply (NoDup_count_occ (list_eq_dec ascii_dec)). intros k.
  destruct (in_dec (list_eq_dec ascii_dec) k monthKeys) as [I|N].
  - simpl in I. repeat (destruct I as [<-|I]; [vm_compute; lia|]). contradiction.
  - apply (count_occ_not_In (list_eq_dec ascii_dec)) in N. lia.
Qed.

Lemma monthKeys_length : length monthKeys = 12.
Proof. vm_compute. reflexivity. Qed.

Lemma month_key (n : N) :
  (1 <=? n)%N && (n <=? 12)%N = true -> In (String_of n) monthKeys.
Proof. intros H. apply in_map. now apply month_cases. Qed.

(** X16.  A table never has more than twelve months, and the run gives the
    warning about missing months exactly when one of the keys 1 to 12 has
    no entry; the number it reports is the number of months in the table,
    below twelve. *)
Theorem rotations_warning (now : str) (rows : list row) (out : output) :
  rotations now rows = Ok out ->
  length (Obj.keys (months (written out))) <= 12
  /\ (warning out = None
      <-> forallb (fun k => Obj.has k (months (written out))) monthKeys = true)
  /\ (forall found, warning out = Some found ->
        found = length (Obj.keys (months (written out))) /\ found < 12).
Proof.
  intros H. pose proof (rotations_ok _ _ H) as M.
  assert (W : warning out
              = if (length (Obj.keys (months (written out))) =? 12)%nat then None
                else Some (length (Obj.keys (months (written out))))).
  { unfold rotations in H. destruct (filter isAxoRow rows); [discriminate|].
    injection H as <-. reflexivity. }
  set (tbl := months (written out)) in *.
  assert (D : NoDup (Obj.keys tbl)).
  { apply (Permutation_NoDup (Permutation_sym (keys_perm tbl))).
    rewrite M. apply fillMonths_NoDup. constructor. }
  assert (I : incl (Obj.keys tbl) monthKeys).
  { intros k Hk. apply keys_names in Hk. rewrite M in Hk.
    apply fillMonths_names in Hk as [[]|(n & Hn & ->)]. now apply month_key. }
  assert (L : length (Obj.keys tbl) <= 12)
    by (rewrite <- monthKeys_length; apply (NoDup_incl_length D I)).
  assert (C : length (Obj.keys tbl) = 12
              <-> forallb (fun k => Obj.has k tbl) monthKeys = true).
  { rewrite forallb_forall. split.
    - intros E k Hk. apply has_names, keys_names.
      apply (@NoDup_length_incl _ (Obj.keys tbl) monthKeys D);
        [rewrite E, monthKeys_length; lia|exact I|exact Hk].
    - intros A. assert (I' : incl monthKeys (Obj.keys tbl)).
      { intros k Hk. apply keys_names, has_names. now apply A. }
      pose proof (NoDup_incl_length monthKeys_NoDup I') as L'.
      rewrite monthKeys_length in L'. lia. }
  split; [exact L|split].
  - rewrite W, <- C. destruct (Nat.eqb_spec (length (Obj.keys tbl)) 12);
      split; congruence.
  - intros found E. rewrite W in E.
    destruct (Nat.eqb_spec (length (Obj.keys tbl)) 12); [discriminate|].
    inversion E. lia.
Qed.

Lemma rotations_warning_witness :
  length (Obj.keys (months (written sampleOut))) <= 12.
Proof.
  assert (E : rotations "now" Sample.rows = Ok sampleOut) by (vm_compute; reflexivity).
  exact (proj1 (@rotations_warning _ _ _ E)).
Defined.

Lemma get_set_inv (V : Type) (o : Obj.t V) (k h : str) (v x : V) :
  Obj.get k (Obj.set h v o) = Some x -> (k = h /\ x = v) \/ Obj.get k o = Some x.
Proof.
  intros H. destruct (str_eqb k h) eqn:E.
  - apply str_eqb_eq in E. subst k.
    destruct (str_eqb h "__proto__") eqn:P.
    + right. unfold Obj.set in H. now rewrite P in H.
    + apply str_eqb_neq in P. rewrite get_set_same in H by exact P.
      left. split; congruence.
  - apply str_eqb_neq in E. rewrite get_set_other in H by exact E. now right.
Qed.

Lemma fillMonths_get (k : str) (e : entry) : forall (rows : list row) (months : Obj.t entry),
  Obj.get k (fillMonths rows months) = Some e ->
  Obj.get k months = Some e
  \/ exists r n,
       In r rows /\ extractMonthIndex r = Some (Finite n)
       /\ (1 <=? n)%N && (n <=? 12)%N = true
       /\ k = String_of n /\ e = entryOf r.
Proof.
  induction rows as [|r rows IH]; intros months H; [now left|].
  rewrite fillMonths_cons in H. apply IH in H as [H|(r' & n & I & H)].
  - destruct (extractMonthIndex r) as [[n|]|] eqn:E; [|now left|now left].
    simpl in H.
    destruct ((1 <=? n)%N && (n <=? 12)%N) eqn:V; [|now left].
    apply get_set_inv in H as [[-> ->]|H]; [|now left].
    right. exists r, n. repeat split; auto. now left.
  - right. exists r', n. split; [now right|exact H].
Qed.

(** X17.  Every entry of the table comes from a record of the target list
    whose month number, from 1 to 12, is the key of the entry; its name is
    never empty, its image is null and its tags are distinct. *)
Theorem rotations_entries (now : str) (rows : list row) (out : output) (k : str)
    (e : entry) :
  rotations now rows = Ok out ->
  Obj.get k (months (written out)) = Some e ->
  exists r n,
    In r rows /\ isAxoRow r = true
    /\ extractMonthIndex r = Some (Finite n) /\ (1 <= n <= 12)%N
    /\ k = String_of n /\ e = entryOf r
    /\ name e <> [] /\ image e = None /\ NoDup (regions e).
Proof.
  intros H G. rewrite (rotations_ok _ _ H) in G.
  apply fillMonths_get in G as [G|(r & n & I & E & V & -> & ->)]; [discriminate|].
  apply filter_In in I as [I A]. exists r, n.
  apply andb_true_iff in V as [V1 V2]. apply N.leb_le in V1. apply N.leb_le in V2.
  repeat split; try assumption.
  - unfold entryOf. simpl.
    destruct (prettyFromFishRef (Obj.get "LVLO_Reference" r)); simpl; discriminate.
  - apply extractRegions_loop_NoDup. constructor.
Qed.

Lemma rotations_entries_witness :
  exists r n,
    In r Sample.rows /\ isAxoRow r = true
    /\ extractMonthIndex r = Some (Finite n) /\ (1 <= n <= 12)%N
    /\ "7" = String_of n /\ sampleEntry = entryOf r
    /\ name sampleEntry <> [] /\ image sampleEntry = None /\ NoDup (regions sampleEntry).
Proof.
  assert (E : rotations "now" Sample.rows = Ok sampleOut) by (vm_compute; reflexivity).
  assert (G : Obj.get "7" (months (written sampleOut)) = Some sampleEntry)
    by (vm_compute; reflexivity).
  exact (@rotations_entries _ _ _ _ _ E G).
Defined.

(** ** Values beyond the header *)

(** X18.  The values of a data line beyond the number of header names are
    dropped: the record is built from the first values, as many as the
    header has names, and text added after them changes nothing.  The
    field names of every record are among the header's names: they are the
    header's names other than [__proto__], for which the assignment
    creates no field.  Parsing gives one record for each line after the
    header, never an error. *)
Theorem parseTSV_extra_values_dropped :
  (forall (header : list str) (line : str),
      rowOfLine header line
      = fillRow header (firstn (length header) (split TAB line)) [])
  /\ (forall (header : list str) (line extra : str),
        length header <= length (split TAB line) ->
        rowOfLine header (line ++ TAB :: extra) = rowOfLine header line)
  /\ (forall (tsvText : str) (r : row) (k : str),
        In r (parseTSV tsvText) ->
        (In k (Obj.keys r) <-> In k (headerOf tsvText) /\ k <> "__proto__"))
  /\ (forall tsvText : str,
        length (parseTSV tsvText) = pred (length (tsvLines tsvText))).
Proof.
  split; [|split; [|split]].
  - intros header line. apply fillRow_firstn.
  - intros header line extra H. unfold rowOfLine.
    rewrite split_app_sep.
    rewrite fillRow_firstn, (fillRow_firstn header (split TAB line)).
    rewrite firstn_app.
    replace (length header - length (split TAB line)) with 0 by lia.
    simpl. now rewrite app_nil_r.
  - intros tsvText r k H.
    apply parseTSV_rows in H as (line & _ & ->).
    rewrite keys_names. unfold rowOfLine. rewrite fillRow_names. simpl. tauto.
  - intros tsvText. unfold parseTSV.
    destruct (tsvLines tsvText); [reflexivity|]. simpl. apply length_map.
Qed.

Lemma parseTSV_extra_values_dropped_witness :
  rowOfLine ["A"; "B"] ("x" ++ [TAB] ++ "y" ++ TAB :: "z" ++ [TAB] ++ "w")
  = rowOfLine ["A"; "B"] ("x" ++ [TAB] ++ "y")
  /\ (In "B" (Obj.keys (nth 0 (parseTSV ("A" ++ [TAB] ++ "B" ++ [LF]
                                          ++ "x" ++ [TAB] ++ "y" ++ [TAB] ++ "z")) []))
      <-> In "B" (headerOf ("A" ++ [TAB] ++ "B" ++ [LF]
                            ++ "x" ++ [TAB] ++ "y" ++ [TAB] ++ "z"))
          /\ "B" <> "__proto__").
Proof.
  split.
  - apply (proj1 (proj2 parseTSV_extra_values_dropped) ["A"; "B"] ("x" ++ [TAB] ++ "y") ("z" ++ [TAB] ++ "w")).
    vm_compute. lia.
  - apply (proj1 (proj2 (proj2 parseTSV_extra_values_dropped))).
    vm_compute. auto.
Defined.
